(** * Q-ary search: a shallow embedding of [q_ary_search.hpp]

    The header defines, for every arity Q in 2..6, a search
    [_Q_ary_search] that narrows an active window {begin, length} by
    probing Q-1 fragment borders per step and finishes with a linear
    scan, together with the wrappers [_Q_ary_lower_bound],
    [_Q_ary_upper_bound] and the membership overload.

    Modelling choices:
    - a random access iterator is a position in [Z]; dereferencing goes
      through a [machine] holding the element store ([heap]) and the log
      of dereferenced positions ([reads]);
    - [length_t] is [unsigned int], 32 bits wide on the LP64 and LLP64
      data models, while the difference of two iterators has 64 bits:
      a length is a value in [0, 2^32), the cast [(length_t)(end -
      begin)] and every arithmetic operation on lengths are reduced
      modulo 2^32;
    - the two [while] loops take fuel; running out of fuel is [None];
    - the global parameter objects are passed explicitly. *)

From Stdlib Require Import ZArith List Lia Bool.
Import ListNotations.
Local Open Scope Z_scope.

(** ** [length_t] *)

(** [typedef unsigned int length_t;] *)
Definition length_t : Set := Z.
Definition length_t_modulus : Z := 2 ^ 32.

(** Conversion to [length_t], as in [(length_t)(end - begin)], and the
    reduction every unsigned operation performs. *)
Definition to_length_t (z : Z) : length_t := z mod length_t_modulus.

(** ** Threshold parameters *)

(** The five [_Q_ary_search_parameters_t] structs have the same single
    field. *)
Record search_parameters_t : Set := mk_parameters {
  _to_linear_threshold : length_t
}.

Definition _2_ary_search_parameters : search_parameters_t :=
  {| _to_linear_threshold := to_length_t (2 * 2) |}.
Definition _3_ary_search_parameters : search_parameters_t :=
  {| _to_linear_threshold := to_length_t (3 * 2) |}.
Definition _4_ary_search_parameters : search_parameters_t :=
  {| _to_linear_threshold := to_length_t (4 * 2) |}.
Definition _5_ary_search_parameters : search_parameters_t :=
  {| _to_linear_threshold := to_length_t (5 * 2) |}.
Definition _6_ary_search_parameters : search_parameters_t :=
  {| _to_linear_threshold := to_length_t (6 * 2) |}.

(** ** The machine: element store and dereference log *)

Record machine (T : Type) : Type := mk_machine {
  heap : Z -> T;
  reads : list Z
}.
Arguments mk_machine {T} _ _.
Arguments heap {T} _ _.
Arguments reads {T} _.

(** Computations that may read the store. *)
Definition M (T A : Type) : Type := machine T -> A * machine T.

Definition ret {T A} (a : A) : M T A := fun m => (a, m).

Definition bind {T A B} (c : M T A) (k : A -> M T B) : M T B :=
  fun m => let (a, m') := c m in k a m'.

(** [*it]: the only primitive; it logs the position and leaves the
    store alone. *)
Definition deref {T} (it : Z) : M T T :=
  fun m => (heap m it, mk_machine (heap m) (it :: reads m)).

Declare Scope qsearch_scope.
Delimit Scope qsearch_scope with qsearch.
Notation "x <- c ;; k" := (bind c (fun x => k))
  (at level 61, c at next level, right associativity) : qsearch_scope.
Local Open Scope qsearch_scope.

(** The active window {begin, length}. *)
Record window : Set := mk_window {
  w_begin : Z;
  w_length : length_t
}.

(** [while ( cond ) body] on the window, with fuel. *)
Fixpoint while_ {T} (fuel : nat) (cond : window -> bool)
    (body : window -> M T window) (w : window) : M T (option window) :=
  match fuel with
  | O => ret None
  | S fuel' =>
      if cond w then w' <- body w ;; while_ fuel' cond body w'
      else ret (Some w)
  end.

Section Search.

Context {T V : Type}.
Variable pred : T -> V -> bool.
Variable q : V.

(** [while ( begin != end && pred( *begin, q ) ) ++begin; return begin;] *)
Fixpoint linear_search (fuel : nat) (begin end_ : Z) : M T (option Z) :=
  match fuel with
  | O => ret None
  | S fuel' =>
      if negb (begin =? end_) then
        x <- deref begin ;;
        if pred x q then linear_search fuel' (begin + 1) end_
        else ret (Some begin)
      else ret (Some begin)
  end.

(** The tail shared by the five searches: [end = begin + length] and the
    linear scan. *)
Definition finish (fuel : nat) (ow : option window) : M T (option Z) :=
  match ow with
  | None => ret None
  | Some w => linear_search fuel (w_begin w) (w_begin w + w_length w)
  end.

(** *** Arity 2 *)

Definition _2_ary_body (w : window) : M T window :=
  let fragment_length := w_length w / 2 in
  let begin_1 := w_begin w + fragment_length in
  x1 <- deref begin_1 ;;
  if pred x1 q then
    ret (mk_window begin_1 (to_length_t (w_length w - fragment_length)))
  else
    ret (mk_window (w_begin w) fragment_length).

Definition _2_ary_search (P : search_parameters_t) (fuel : nat)
    (begin end_ : Z) : M T (option Z) :=
  let length := to_length_t (end_ - begin) in
  ow <- while_ fuel (fun w => _to_linear_threshold P <=? w_length w)
          _2_ary_body (mk_window begin length) ;;
  finish fuel ow.

(** *** Arity 3 *)

Definition _3_ary_body (w : window) : M T window :=
  let fragment_length := w_length w / 3 in
  let begin_1 := w_begin w + fragment_length in
  x1 <- deref begin_1 ;;
  if pred x1 q then
    let begin_2 := begin_1 + fragment_length in
    x2 <- deref begin_2 ;;
    if pred x2 q then
      ret (mk_window begin_2
             (to_length_t (w_length w - to_length_t (2 * fragment_length))))
    else
      ret (mk_window begin_1 fragment_length)
  else
    ret (mk_window (w_begin w) fragment_length).

Definition _3_ary_search (P : search_parameters_t) (fuel : nat)
    (begin end_ : Z) : M T (option Z) :=
  let length := to_length_t (end_ - begin) in
  ow <- while_ fuel (fun w => _to_linear_threshold P <=? w_length w)
          _3_ary_body (mk_window begin length) ;;
  finish fuel ow.

(** *** Arity 4 *)

Definition _4_ary_body (w : window) : M T window :=
  let fragment_length := w_length w / 4 in
  let begin_1 := w_begin w + fragment_length in
  x1 <- deref begin_1 ;;
  if pred x1 q then
    let begin_2 := begin_1 + fragment_length in
    x2 <- deref begin_2 ;;
    if pred x2 q then
      let begin_3 := begin_2 + fragment_length in
      x3 <- deref begin_3 ;;
      if pred x3 q then
        ret (mk_window begin_3
               (to_length_t (w_length w - to_length_t (3 * fragment_length))))
      else
        ret (mk_window begin_2 fragment_length)
    else
      ret (mk_window begin_1 fragment_length)
  else
    ret (mk_window (w_begin w) fragment_length).

Definition _4_ary_search (P : search_parameters_t) (fuel : nat)
    (begin end_ : Z) : M T (option Z) :=
  let length := to_length_t (end_ - begin) in
  ow <- while_ fuel (fun w => _to_linear_threshold P <=? w_length w)
          _4_ary_body (mk_window begin length) ;;
  finish fuel ow.

(** *** Arity 5 *)

Definition _5_ary_body (w : window) : M T window :=
  let fragment_length := w_length w / 5 in
  let begin_1 := w_begin w + fragment_length in
  x1 <- deref begin_1 ;;
  if pred x1 q then
    let begin_2 := begin_1 + fragment_length in
    x2 <- deref begin_2 ;;
    if pred x2 q then
      let begin_3 := begin_2 + fragment_length in
      x3 <- deref begin_3 ;;
      if pred x3 q then
        let begin_4 := begin_3 + fragment_length in
        x4 <- deref begin_4 ;;
        if pred x4 q then
          ret (mk_window begin_4
                 (to_length_t (w_length w - to_length_t (4 * fragment_length))))
        else
          ret (mk_window begin_3 fragment_length)
      else
        ret (mk_window begin_2 fragment_length)
    else
      ret (mk_window begin_1 fragment_length)
  else
    ret (mk_window (w_begin w) fragment_length).

Definition _5_ary_search (P : search_parameters_t) (fuel : nat)
    (begin end_ : Z) : M T (option Z) :=
  let length := to_length_t (end_ - begin) in
  ow <- while_ fuel (fun w => _to_linear_threshold P <=? w_length w)
          _5_ary_body (mk_window begin length) ;;
  finish fuel ow.

(** *** Arity 6 *)

Definition _6_ary_body (w : window) : M T window :=
  let fragment_length := w_length w / 6 in
  let begin_1 := w_begin w + fragment_length in
  x1 <- deref begin_1 ;;
  if pred x1 q then
    let begin_2 := begin_1 + fragment_length in
    x2 <- deref begin_2 ;;
    if pred x2 q then
      let begin_3 := begin_2 + fragment_length in
      x3 <- deref begin_3 ;;
      if pred x3 q then
        let begin_4 := begin_3 + fragment_length in
        x4 <- deref begin_4 ;;
        if pred x4 q then
          let begin_5 := begin_4 + fragment_length in
          x5 <- deref begin_5 ;;
          if pred x5 q then
            ret (mk_window begin_5
                   (to_length_t
                      (w_length w - to_length_t (5 * fragment_length))))
          else
            ret (mk_window begin_4 fragment_length)
        else
          ret (mk_window begin_3 fragment_length)
      else
        ret (mk_window begin_2 fragment_length)
    else
      ret (mk_window begin_1 fragment_length)
  else
    ret (mk_window (w_begin w) fragment_length).

Definition _6_ary_search (P : search_parameters_t) (fuel : nat)
    (begin end_ : Z) : M T (option Z) :=
  let length := to_length_t (end_ - begin) in
  ow <- while_ fuel (fun w => _to_linear_threshold P <=? w_length w)
          _6_ary_body (mk_window begin length) ;;
  finish fuel ow.

End Search.

(** ** The comparison objects and the wrappers *)

(** [std::less< ValueT >] and [std::less_equal< ValueT >]: the element
    type's [operator<] and [operator<=]. *)
Class Ordered (T : Type) : Type := {
  less : T -> T -> bool;
  less_equal : T -> T -> bool
}.

(** The laws the searches rely on: [<] is a strict weak ordering and
    [<=] is its complement read backwards. *)
Class OrderedLaws (T : Type) `{Ordered T} : Prop := {
  less_irrefl : forall x, less x x = false;
  less_trans : forall x y z,
    less x y = true -> less y z = true -> less x z = true;
  less_negtrans : forall x y z,
    less x z = true -> less x y = true \/ less y z = true;
  less_equal_less : forall x y, less_equal x y = negb (less y x)
}.

#[export] Instance Ordered_Z : Ordered Z :=
  {| less := Z.ltb; less_equal := Z.leb |}.

Section Wrappers.

Context {T : Type} `{Ordered T}.

Definition _2_ary_lower_bound P fuel begin end_ (q : T) : M T (option Z) :=
  _2_ary_search less q P fuel begin end_.
Definition _2_ary_upper_bound P fuel begin end_ (q : T) : M T (option Z) :=
  _2_ary_search less_equal q P fuel begin end_.

Definition _3_ary_lower_bound P fuel begin end_ (q : T) : M T (option Z) :=
  _3_ary_search less q P fuel begin end_.
Definition _3_ary_upper_bound P fuel begin end_ (q : T) : M T (option Z) :=
  _3_ary_search less_equal q P fuel begin end_.

Definition _4_ary_lower_bound P fuel begin end_ (q : T) : M T (option Z) :=
  _4_ary_search less q P fuel begin end_.
Definition _4_ary_upper_bound P fuel begin end_ (q : T) : M T (option Z) :=
  _4_ary_search less_equal q P fuel begin end_.

Definition _5_ary_lower_bound P fuel begin end_ (q : T) : M T (option Z) :=
  _5_ary_search less q P fuel begin end_.
Definition _5_ary_upper_bound P fuel begin end_ (q : T) : M T (option Z) :=
  _5_ary_search less_equal q P fuel begin end_.

Definition _6_ary_lower_bound P fuel begin end_ (q : T) : M T (option Z) :=
  _6_ary_search less q P fuel begin end_.
Definition _6_ary_upper_bound P fuel begin end_ (q : T) : M T (option Z) :=
  _6_ary_search less_equal q P fuel begin end_.

(** [return result != end && ! (q < *result);] with its short circuit:
    the element is read only when [result != end]. *)
Definition found (end_ : Z) (q : T) (oresult : option Z)
    : M T (option bool) :=
  match oresult with
  | None => ret None
  | Some result =>
      if negb (result =? end_) then
        x <- deref result ;; ret (Some (negb (less q x)))
      else ret (Some false)
  end.

(** The [bool] overloads of [_Q_ary_search]. *)
Definition _2_ary_search_bool P fuel begin end_ (q : T) : M T (option bool) :=
  result <- _2_ary_search less q P fuel begin end_ ;; found end_ q result.
Definition _3_ary_search_bool P fuel begin end_ (q : T) : M T (option bool) :=
  result <- _3_ary_search less q P fuel begin end_ ;; found end_ q result.
Definition _4_ary_search_bool P fuel begin end_ (q : T) : M T (option bool) :=
  result <- _4_ary_search less q P fuel begin end_ ;; found end_ q result.
Definition _5_ary_search_bool P fuel begin end_ (q : T) : M T (option bool) :=
  result <- _5_ary_search less q P fuel begin end_ ;; found end_ q result.
Definition _6_ary_search_bool P fuel begin end_ (q : T) : M T (option bool) :=
  result <- _6_ary_search less q P fuel begin end_ ;; found end_ q result.

End Wrappers.

(** ** The family, indexed by arity *)

Inductive arity : Set := Q2 | Q3 | Q4 | Q5 | Q6.

Definition arity_value (a : arity) : Z :=
  match a with Q2 => 2 | Q3 => 3 | Q4 => 4 | Q5 => 5 | Q6 => 6 end.

Definition Q_ary_search_parameters (a : arity) : search_parameters_t :=
  match a with
  | Q2 => _2_ary_search_parameters
  | Q3 => _3_ary_search_parameters
  | Q4 => _4_ary_search_parameters
  | Q5 => _5_ary_search_parameters
  | Q6 => _6_ary_search_parameters
  end.

Definition Q_ary_body {T V} (a : arity) (pred : T -> V -> bool) (q : V)
    : window -> M T window :=
  match a with
  | Q2 => _2_ary_body pred q
  | Q3 => _3_ary_body pred q
  | Q4 => _4_ary_body pred q
  | Q5 => _5_ary_body pred q
  | Q6 => _6_ary_body pred q
  end.

Definition Q_ary_search {T V} (a : arity) (pred : T -> V -> bool) (q : V)
    : search_parameters_t -> nat -> Z -> Z -> M T (option Z) :=
  match a with
  | Q2 => _2_ary_search pred q
  | Q3 => _3_ary_search pred q
  | Q4 => _4_ary_search pred q
  | Q5 => _5_ary_search pred q
  | Q6 => _6_ary_search pred q
  end.

Definition Q_ary_lower_bound {T} `{Ordered T} (a : arity)
    (P : search_parameters_t) (fuel : nat) (begin end_ : Z) (q : T)
    : M T (option Z) :=
  match a with
  | Q2 => _2_ary_lower_bound P fuel begin end_ q
  | Q3 => _3_ary_lower_bound P fuel begin end_ q
  | Q4 => _4_ary_lower_bound P fuel begin end_ q
  | Q5 => _5_ary_lower_bound P fuel begin end_ q
  | Q6 => _6_ary_lower_bound P fuel begin end_ q
  end.

Definition Q_ary_upper_bound {T} `{Ordered T} (a : arity)
    (P : search_parameters_t) (fuel : nat) (begin end_ : Z) (q : T)
    : M T (option Z) :=
  match a with
  | Q2 => _2_ary_upper_bound P fuel begin end_ q
  | Q3 => _3_ary_upper_bound P fuel begin end_ q
  | Q4 => _4_ary_upper_bound P fuel begin end_ q
  | Q5 => _5_ary_upper_bound P fuel begin end_ q
  | Q6 => _6_ary_upper_bound P fuel begin end_ q
  end.

Definition Q_ary_contains {T} `{Ordered T} (a : arity)
    (P : search_parameters_t) (fuel : nat) (begin end_ : Z) (q : T)
    : M T (option bool) :=
  match a with
  | Q2 => _2_ary_search_bool P fuel begin end_ q
  | Q3 => _3_ary_search_bool P fuel begin end_ q
  | Q4 => _4_ary_search_bool P fuel begin end_ q
  | Q5 => _5_ary_search_bool P fuel begin end_ q
  | Q6 => _6_ary_search_bool P fuel begin end_ q
  end.

(** ** Arrays for running the code *)

(** [a[i]] for an array given by its elements, placed at position 0. *)
Definition array_heap (l : list Z) : Z -> Z :=
  fun i => nth (Z.to_nat i) l 0.

Definition array_machine (l : list Z) : machine Z :=
  mk_machine (array_heap l) [].

(** The arrays of [test_search_on_sorted_int_array]. *)
Definition test_ordinary : list Z :=
  [2; 4; 6; 7; 12; 13; 16; 19; 23; 24; 27; 32; 36].
Definition test_fragmented : list Z :=
  [3; 3; 3; 7; 7; 7; 7; 12; 12; 16; 16; 16; 16].
Definition test_constant : list Z := [4; 4; 4; 4; 4; 4; 4; 4; 4].

(** [search_f( a, a+n, v )] for each of the five lower bounds, at
    the default parameters. *)
Definition run_lower_bounds (l : list Z) (v : Z) : list (option Z) :=
  map (fun a =>
         fst (Q_ary_lower_bound a (Q_ary_search_parameters a) 64
                0 (Z.of_nat (List.length l)) v (array_machine l)))
      [Q2; Q3; Q4; Q5; Q6].

Definition all_return (r : Z) : list (option Z) :=
  [Some r; Some r; Some r; Some r; Some r].

(** A second store for the first test array: other elements outside
    the array and another history of reads. *)
Definition test_ordinary_elsewhere : machine Z :=
  mk_machine (fun i => if (0 <=? i) && (i <? 13)
                       then array_heap test_ordinary i else 99)
             [40; 41].

(** A sorted range of 2^32 elements: the element at position [i] is
    [i]. *)
Definition long_range : machine Z := mk_machine (fun i => i) [].

(** ** One narrowing step, for any arity

    The five unrolled cascades are instances of one step: probe the
    fragment borders from left to right and stop at the first probe that
    fails. *)

Section Cascade.

Context {T V : Type}.
Variable pred : T -> V -> bool.
Variable q : V.

(** [n] probes left, [b] the last border that passed (or the window
    start), [rest] the length from [b] to the window end. *)
Fixpoint probe_cascade (n : nat) (b fl rest : Z) : M T window :=
  match n with
  | O => ret (mk_window b rest)
  | S n' =>
      x <- deref (b + fl) ;;
      if pred x q then probe_cascade n' (b + fl) fl (rest - fl)
      else ret (mk_window b fl)
  end.

Definition generic_body (Q : Z) (w : window) : M T window :=
  probe_cascade (Z.to_nat (Q - 1)) (w_begin w) (w_length w / Q) (w_length w).

(** How many of the [n] probes after [b] pass before the first one
    that fails. *)
Fixpoint passing (h : Z -> T) (n : nat) (b fl : Z) : nat :=
  match n with
  | O => O
  | S n' =>
      if pred (h (b + fl)) q then S (passing h n' (b + fl) fl) else O
  end.

(** The log after probing [c] borders in a row. *)
Fixpoint probe_log (c : nat) (b fl : Z) (log : list Z) : list Z :=
  match c with
  | O => log
  | S c' => probe_log c' (b + fl) fl ((b + fl) :: log)
  end.

(** The window a step leaves when [k] of the [n] probes passed. *)
Definition narrowed (n k : nat) (b fl rest : Z) : window :=
  if (k <? n)%nat then mk_window (b + Z.of_nat k * fl) fl
  else mk_window (b + Z.of_nat n * fl) (rest - Z.of_nat n * fl).

End Cascade.

(** The log after reading [c] elements in a row from [b]. *)
Fixpoint scan_log (c : nat) (b : Z) (log : list Z) : list Z :=
  match c with
  | O => log
  | S c' => scan_log c' (b + 1) (b :: log)
  end.

(** ** Reference searches, from the words of the specification *)

Section Reference.

Context {T V : Type}.
Variable pred : T -> V -> bool.
Variable q : V.

(** The first position in a range of [n] elements from [b] whose
    element fails the predicate, the end of the range when none does. *)
Fixpoint first_failing (h : Z -> T) (n : nat) (b : Z) : Z :=
  match n with
  | O => b
  | S n' => if pred (h b) q then first_failing h n' (b + 1) else b
  end.

(** How many elements a scan of [n] elements from [b] reads. *)
Fixpoint scan_reads (h : Z -> T) (n : nat) (b : Z) : nat :=
  match n with
  | O => O
  | S n' => if pred (h b) q then S (scan_reads h n' (b + 1)) else 1%nat
  end.

End Reference.

(** The reference the specification compares with: textbook binary
    search for the partition point, the loop of the standard library's
    lower and upper bound. It halves the range of [len] elements from
    [first] until the range is empty. *)
Fixpoint binary_search {T V} (pred : T -> V -> bool) (q : V)
    (h : Z -> T) (fuel : nat) (first len : Z) : Z :=
  match fuel with
  | O => first
  | S fuel' =>
      if 0 <? len then
        let half := len / 2 in
        let mid := first + half in
        if pred (h mid) q
        then binary_search pred q h fuel' (mid + 1) (len - half - 1)
        else binary_search pred q h fuel' first half
      else first
  end.

(** Reference lower bound: first position whose element is not less
    than [v]. *)
Definition reference_lower_bound {T} `{Ordered T}
    (h : Z -> T) (begin end_ : Z) (v : T) : Z :=
  binary_search less v h (Z.to_nat (end_ - begin)) begin (end_ - begin).

(** Reference upper bound: first position whose element is strictly
    greater than [v]. *)
Definition reference_upper_bound {T} `{Ordered T}
    (h : Z -> T) (begin end_ : Z) (v : T) : Z :=
  binary_search less_equal v h (Z.to_nat (end_ - begin)) begin (end_ - begin).

(** ** Properties of ranges *)

Section RangeProperties.

Context {T V : Type}.
Variable pred : T -> V -> bool.
Variable q : V.
Variable h : Z -> T.

(** The range [b, e) is partitioned by [pred( _, q )]: the elements that
    satisfy it come first. *)
Definition partitioned (b e : Z) : Prop :=
  forall i j, b <= i -> i <= j -> j < e ->
    pred (h j) q = true -> pred (h i) q = true.

(** [r] is the first position of [b, e) where the predicate is false,
    or [e] when there is none. *)
Definition partition_point (b e r : Z) : Prop :=
  b <= r <= e /\
  (forall i, b <= i < r -> pred (h i) q = true) /\
  (r < e -> pred (h r) q = false).

End RangeProperties.

(** The range [b, e) is sorted by the ordering [lt]. *)
Definition sorted_range {T} (lt : T -> T -> bool) (h : Z -> T) (b e : Z)
    : Prop :=
  forall i j, b <= i -> i < j -> j < e -> lt (h j) (h i) = false.

(** A strict weak ordering on [T], as a comparison object. *)
Record strict_weak_order {T} (lt : T -> T -> bool) : Prop := {
  swo_irrefl : forall x, lt x x = false;
  swo_trans : forall x y z, lt x y = true -> lt y z = true -> lt x z = true;
  swo_negtrans : forall x y z,
    lt x z = true -> lt x y = true \/ lt y z = true
}.

(** Two stores hold the same elements in [b, e). *)
Definition agree {T} (h1 h2 : Z -> T) (b e : Z) : Prop :=
  forall i, b <= i < e -> h1 i = h2 i.

(** Every position of the list lies in [b, e). *)
Definition all_within (b e : Z) (log : list Z) : Prop :=
  Forall (fun p => b <= p < e) log.

(** Two values are equivalent under the ordering: neither is less
    than the other. *)
Definition equivalent {T} `{Ordered T} (x y : T) : Prop :=
  less x y = false /\ less y x = false.

(** ** The search for any arity

    The algorithm the five functions unroll, with the arity as a
    parameter: the same window, the same two loops, the narrowing step
    a cascade of [Q - 1] probes. The lengths are plain integers here. *)
Definition generic_search {T V} (Q : Z) (pred : T -> V -> bool) (q : V)
    (P : search_parameters_t) (fuel : nat) (begin end_ : Z)
    : M T (option Z) :=
  let length := to_length_t (end_ - begin) in
  ow <- while_ fuel (fun w => _to_linear_threshold P <=? w_length w)
          (generic_body pred q Q) (mk_window begin length) ;;
  finish pred q fuel ow.

(** ** The self test of [main.cpp] *)

(** A search function as [test_search_on_sorted_int_array] takes it:
    [search_f( begin, end, q )] on arrays of [int]. *)
Definition search_function : Type := Z -> Z -> Z -> M Z (option Z).

(** [result = search_f( a, a+n, v ); assert( result == a + k );]
    with the array [a] at position 0: the assertion holds when the call
    returns and returns [a + k]. *)
Definition assert_result (search_f : search_function) (a : list Z)
    (v k : Z) : bool :=
  let n := Z.of_nat (List.length a) in
  match fst (search_f 0 (0 + n) v (array_machine a)) with
  | Some result => result =? 0 + k
  | None => false
  end.

(** [test_search_on_sorted_int_array]: true when no assertion fails.
    The empty sequence is the null pointer with [n = 0]. *)
Definition test_search_on_sorted_int_array (search_f : search_function)
    : bool :=
  (* Test on ordinary sequence *)
  assert_result search_f test_ordinary 19 7 &&
  assert_result search_f test_ordinary 36 12 &&
  assert_result search_f test_ordinary 6 2 &&
  assert_result search_f test_ordinary 20 8 &&
  assert_result search_f test_ordinary 8 4 &&
  assert_result search_f test_ordinary 1 0 &&
  assert_result search_f test_ordinary 42 13 &&
  (* Test on fragmented sequence *)
  assert_result search_f test_fragmented 7 3 &&
  assert_result search_f test_fragmented 8 7 &&
  assert_result search_f test_fragmented 2 0 &&
  assert_result search_f test_fragmented 20 13 &&
  assert_result search_f test_fragmented 15 9 &&
  (* Test on constant sequence *)
  assert_result search_f test_constant 4 0 &&
  assert_result search_f test_constant 5 9 &&
  (* Test on empty sequence *)
  assert_result search_f [] 6 0 &&
  assert_result search_f [] 12 0.

(** [& ml::algorithm::_Q_ary_lower_bound< const int*, int >] under the
    parameters [P]. *)
Definition lower_bound_function (a : arity) (P : search_parameters_t)
    (fuel : nat) : search_function :=
  fun begin end_ q => Q_ary_lower_bound a P fuel begin end_ q.

(** Elements paired with a key, searched by key: the predicate compares
    an element of one type with a query of another. *)
Definition keyed_heap : Z -> Z * bool :=
  fun i => (array_heap test_fragmented i, Z.even i).

Definition key_below (x : Z * bool) (k : Z) : bool := fst x <? k.

(** An array that is not sorted. *)
Definition test_unsorted : list Z := [9; 1; 8; 2; 7; 3; 6; 4; 5; 0; 9; 1; 8].

(** What the narrowing loop keeps on any range [b0, e0) of the store
    [h]: the window starts at the range start or at an element that
    satisfies the predicate, and ends at the range end or at an element
    that fails it. *)
Definition bracketed {T V} (pred : T -> V -> bool) (q : V) (h : Z -> T)
    (b0 e0 : Z) (w : window) (m : machine T) : Prop :=
  heap m = h /\
  0 <= w_length w < length_t_modulus /\
  (w_begin w = b0 \/ (pred (h (w_begin w)) q = true /\ 1 <= w_length w)) /\
  (w_begin w + w_length w = e0 \/
   pred (h (w_begin w + w_length w)) q = false).

(** ** The benchmark loop of [main.cpp] *)

(** [volatile unsigned long long collector]: 64 bits. *)
Definition collector_modulus : Z := 2 ^ 64.

(** The loop of [run_searches], on integer queries:
    [for ( q = start_q; q <= finish_q; q += step_q )
       { result = search_f( begin, end, q ); collector += (result - begin); }]
    The value is the collector after the loop. The clock readings around
    the loop and the printed duration are not part of the model. The
    query type is modelled by the integers: with a machine integer type
    the model covers the runs in which [q += step_q] does not overflow
    it. *)
Fixpoint run_searches_loop (fuel : nat) (search_f : search_function)
    (begin end_ : Z) (q finish_q step_q : Z) (collector : Z)
    : M Z (option Z) :=
  match fuel with
  | O => ret None
  | S fuel' =>
      if q <=? finish_q then
        result <- search_f begin end_ q ;;
        match result with
        | None => ret None
        | Some result =>
            run_searches_loop fuel' search_f begin end_
              (q + step_q) finish_q step_q
              ((collector + (result - begin)) mod collector_modulus)
        end
      else ret (Some collector)
  end.

Definition run_searches (fuel : nat) (search_f : search_function)
    (begin end_ : Z) (start_q finish_q step_q : Z) (collector : Z)
    : M Z (option Z) :=
  run_searches_loop fuel search_f begin end_ start_q finish_q step_q
    collector.

(** A query value on which the integer arithmetic of the model is the
    arithmetic of the query types of the source: an integer of magnitude
    up to 2^24 is exact in [float] (24-bit significand), the type
    [main.cpp] runs the benchmark with, and lies well inside [int]. When
    [q], [step_q] and [q + step_q] are such values, [q += step_q]
    neither rounds nor overflows. *)
Definition exact_query (z : Z) : Prop := - 2 ^ 24 <= z <= 2 ^ 24.

(** * Proofs *)

(** ** The integers are ordered *)

#[export] Instance OrderedLaws_Z : OrderedLaws Z.
Proof.
  split; simpl; intros.
  - apply Z.ltb_irrefl.
  - apply Z.ltb_lt. apply Z.ltb_lt in H, H0. lia.
  - rewrite !Z.ltb_lt. apply Z.ltb_lt in H. lia.
  - rewrite Z.leb_antisym. reflexivity.
Qed.

(** ** The assertions of [test_search_on_sorted_int_array] *)

Example test_ordinary_asserts :
  run_lower_bounds test_ordinary 19 = all_return 7 /\
  run_lower_bounds test_ordinary 36 = all_return 12 /\
  run_lower_bounds test_ordinary 6 = all_return 2 /\
  run_lower_bounds test_ordinary 20 = all_return 8 /\
  run_lower_bounds test_ordinary 8 = all_return 4 /\
  run_lower_bounds test_ordinary 1 = all_return 0 /\
  run_lower_bounds test_ordinary 42 = all_return 13.
Proof. repeat split; vm_compute; reflexivity. Qed.

Example test_fragmented_asserts :
  run_lower_bounds test_fragmented 7 = all_return 3 /\
  run_lower_bounds test_fragmented 8 = all_return 7 /\
  run_lower_bounds test_fragmented 2 = all_return 0 /\
  run_lower_bounds test_fragmented 20 = all_return 13 /\
  run_lower_bounds test_fragmented 15 = all_return 9.
Proof. repeat split; vm_compute; reflexivity. Qed.

Example test_constant_asserts :
  run_lower_bounds test_constant 4 = all_return 0 /\
  run_lower_bounds test_constant 5 = all_return 9.
Proof. repeat split; vm_compute; reflexivity. Qed.

(** The remaining scenarios of the specification: tie runs with both
    bounds, and the membership test. *)
Example tie_run_bounds :
  run_lower_bounds test_fragmented 7 = all_return 3 /\
  map (fun a =>
         fst (Q_ary_upper_bound a (Q_ary_search_parameters a) 64 0 13 7
                (array_machine test_fragmented)))
      [Q2; Q3; Q4; Q5; Q6] = all_return 7 /\
  map (fun a =>
         fst (Q_ary_upper_bound a (Q_ary_search_parameters a) 64 0 9 4
                (array_machine test_constant)))
      [Q2; Q3; Q4; Q5; Q6] = all_return 9.
Proof. repeat split; vm_compute; reflexivity. Qed.

Example membership_runs :
  map (fun a =>
         fst (Q_ary_contains a (Q_ary_search_parameters a) 64 0 13 16
                (array_machine test_fragmented)))
      [Q2; Q3; Q4; Q5; Q6] =
  [Some true; Some true; Some true; Some true; Some true] /\
  map (fun a =>
         fst (Q_ary_contains a (Q_ary_search_parameters a) 64 0 13 20
                (array_machine test_ordinary)))
      [Q2; Q3; Q4; Q5; Q6] =
  [Some false; Some false; Some false; Some false; Some false].
Proof. split; vm_compute; reflexivity. Qed.

Example test_empty_asserts :
  run_lower_bounds [] 6 = all_return 0 /\
  run_lower_bounds [] 12 = all_return 0.
Proof. repeat split; vm_compute; reflexivity. Qed.

(** ** Arithmetic of [length_t] *)

Lemma to_length_t_small z :
  0 <= z < length_t_modulus -> to_length_t z = z.
Proof. intros Hz. unfold to_length_t. apply Z.mod_small. exact Hz. Qed.

Lemma to_length_t_range z : 0 <= to_length_t z < length_t_modulus.
Proof.
  unfold to_length_t, length_t_modulus. apply Z.mod_pos_bound. lia.
Qed.

Lemma to_length_t_le z : 0 <= z -> to_length_t z <= z.
Proof.
  intros Hz. unfold to_length_t, length_t_modulus.
  apply Z.mod_le; lia.
Qed.

Lemma arity_value_range a : 2 <= arity_value a <= 6.
Proof. destruct a; simpl; lia. Qed.

Lemma default_threshold a :
  _to_linear_threshold (Q_ary_search_parameters a) = 2 * arity_value a.
Proof. destruct a; reflexivity. Qed.

(** A fragment of a window of at least [Q] elements is not empty, and
    [Q - 1] fragments leave a non-empty last fragment. *)
Lemma fragment_bounds Q len :
  2 <= Q -> Q <= len ->
  1 <= len / Q /\ (Q - 1) * (len / Q) < len.
Proof.
  intros HQ Hlen.
  assert (Hm : Q * (len / Q) <= len) by (apply Z.mul_div_le; lia).
  assert (H1 : 1 <= len / Q).
  { apply Z.div_le_lower_bound; lia. }
  split; [exact H1 | nia].
Qed.

(** ** The cascade in closed form *)

Section CascadeFacts.

Context {T V : Type}.
Variable pred : T -> V -> bool.
Variable q : V.

Lemma probe_cascade_eq n : forall b fl rest (m : machine T),
  probe_cascade pred q n b fl rest m =
  (narrowed n (passing pred q (heap m) n b fl) b fl rest,
   mk_machine (heap m)
     (probe_log (Nat.min (S (passing pred q (heap m) n b fl)) n) b fl
        (reads m))).
Proof.
  induction n as [|n IH]; intros b fl rest m.
  - destruct m as [hp rd]. unfold narrowed. simpl.
    unfold ret. f_equal. f_equal; lia.
  - cbn [probe_cascade passing]. unfold bind, deref. cbn [heap reads].
    destruct (pred (heap m (b + fl)) q) eqn:Hp.
    + rewrite IH. cbn [heap reads]. f_equal.
      unfold narrowed. change (S ?k <? S n)%nat with (k <? n)%nat.
      destruct (_ <? n)%nat; f_equal; lia.
    + unfold ret, narrowed. simpl. f_equal. f_equal. lia.
Qed.

Lemma passing_le h n : forall b fl, (passing pred q h n b fl <= n)%nat.
Proof.
  induction n as [|n IH]; intros b fl; simpl; [lia|].
  destruct (pred _ q); [specialize (IH (b + fl) fl)|]; lia.
Qed.

(** Every probe up to the count passes. *)
Lemma passing_true h n : forall b fl j,
  1 <= j <= Z.of_nat (passing pred q h n b fl) ->
  pred (h (b + j * fl)) q = true.
Proof.
  induction n as [|n IH]; intros b fl j Hj; simpl in Hj; [lia|].
  destruct (pred (h (b + fl)) q) eqn:Hp; [|simpl in Hj; lia].
  destruct (Z.eq_dec j 1) as [->|Hne].
  - rewrite Z.mul_1_l. exact Hp.
  - replace (b + j * fl) with (b + fl + (j - 1) * fl) by lia.
    apply IH. lia.
Qed.

(** The probe after the count, when there is one, fails. *)
Lemma passing_false h n : forall b fl,
  (passing pred q h n b fl < n)%nat ->
  pred (h (b + (Z.of_nat (passing pred q h n b fl) + 1) * fl)) q = false.
Proof.
  induction n as [|n IH]; intros b fl Hlt; cbn [passing] in *; [lia|].
  destruct (pred (h (b + fl)) q) eqn:Hp.
  - replace (b + (Z.of_nat (S (passing pred q h n (b + fl) fl)) + 1) * fl)
      with (b + fl + (Z.of_nat (passing pred q h n (b + fl) fl) + 1) * fl)
      by lia.
    apply IH. lia.
  - replace (b + (Z.of_nat 0 + 1) * fl) with (b + fl) by lia. exact Hp.
Qed.

(** The count depends on the probed elements only. *)
Lemma passing_ext h1 h2 n : forall b fl,
  (forall j, 1 <= j <= Z.of_nat n -> h1 (b + j * fl) = h2 (b + j * fl)) ->
  passing pred q h1 n b fl = passing pred q h2 n b fl.
Proof.
  induction n as [|n IH]; intros b fl Hag; simpl; [reflexivity|].
  assert (H1 : h1 (b + fl) = h2 (b + fl)).
  { specialize (Hag 1). rewrite Z.mul_1_l in Hag. apply Hag. lia. }
  rewrite H1. destruct (pred _ q); [|reflexivity].
  f_equal. apply IH. intros j Hj.
  replace (b + fl + j * fl) with (b + (j + 1) * fl) by lia.
  apply Hag. lia.
Qed.

(** What a run of probes adds to the log. *)
Lemma probe_log_app c : forall b fl log,
  probe_log c b fl log = probe_log c b fl [] ++ log.
Proof.
  induction c as [|c IH]; intros b fl log; simpl; [reflexivity|].
  rewrite IH. rewrite (IH _ _ [b + fl]). rewrite <- app_assoc. reflexivity.
Qed.

Lemma probe_log_In c : forall b fl p,
  In p (probe_log c b fl []) ->
  exists j, 1 <= j <= Z.of_nat c /\ p = b + j * fl.
Proof.
  induction c as [|c IH]; intros b fl p Hin; simpl in Hin; [contradiction|].
  rewrite probe_log_app in Hin. apply in_app_or in Hin.
  destruct Hin as [Hin|[<-|[]]].
  - destruct (IH _ _ _ Hin) as [j [Hj ->]]. exists (j + 1). split; lia.
  - exists 1. split; lia.
Qed.

End CascadeFacts.

(** ** The unrolled bodies are the generic step *)

Section BodyFacts.

Context {T V : Type}.
Variable pred : T -> V -> bool.
Variable q : V.

Ltac unroll_cascade :=
  unfold generic_body, Q_ary_body, _2_ary_body, _3_ary_body, _4_ary_body,
    _5_ary_body, _6_ary_body;
  cbn [arity_value];
  repeat match goal with
         | |- context [Z.to_nat ?z] =>
             let n := eval vm_compute in (Z.to_nat z) in
             change (Z.to_nat z) with n
         end;
  cbn [probe_cascade]; unfold bind, deref, ret; cbn [heap reads].

Lemma Q_ary_body_generic a w (m : machine T) :
  0 <= w_length w < length_t_modulus ->
  Q_ary_body a pred q w m = generic_body pred q (arity_value a) w m.
Proof.
  intros Hlen.
  assert (Hfl : 0 <= w_length w / arity_value a).
  { apply Z.div_pos; [lia | destruct a; simpl; lia]. }
  assert (Hm : arity_value a * (w_length w / arity_value a) <= w_length w).
  { apply Z.mul_div_le. destruct a; simpl; lia. }
  destruct a; cbn [arity_value] in Hfl, Hm; unroll_cascade;
    repeat match goal with
           | |- context [pred ?x q] => destruct (pred x q)
           end;
    try reflexivity;
    f_equal; f_equal;
    rewrite !to_length_t_small by (try rewrite to_length_t_small; lia);
    lia.
Qed.

(** The step in closed form: the window and the log it leaves. *)
Lemma Q_ary_body_eq a w (m : machine T) :
  0 <= w_length w < length_t_modulus ->
  let n := Z.to_nat (arity_value a - 1) in
  let fl := w_length w / arity_value a in
  let k := passing pred q (heap m) n (w_begin w) fl in
  Q_ary_body a pred q w m =
  (narrowed n k (w_begin w) fl (w_length w),
   mk_machine (heap m)
     (probe_log (Nat.min (S k) n) (w_begin w) fl [] ++ reads m)).
Proof.
  intros Hlen n fl k. rewrite Q_ary_body_generic by exact Hlen.
  unfold generic_body. rewrite probe_cascade_eq.
  rewrite probe_log_app. reflexivity.
Qed.

End BodyFacts.

(** The window after a step, when the window held at least [Q]
    elements: it is a strictly shorter, non-empty part of the old one. *)
Lemma narrowed_inside Q k b len :
  2 <= Q -> Q <= len -> (k <= Z.to_nat (Q - 1))%nat ->
  let w' := narrowed (Z.to_nat (Q - 1)) k b (len / Q) len in
  b <= w_begin w' /\
  w_begin w' + w_length w' <= b + len /\
  1 <= w_length w' /\
  w_length w' <= len - 1.
Proof.
  intros HQ Hlen Hk.
  destruct (fragment_bounds Q len HQ Hlen) as [H1 H2].
  assert (Hn : Z.of_nat (Z.to_nat (Q - 1)) = Q - 1) by lia.
  unfold narrowed. destruct (Nat.ltb_spec k (Z.to_nat (Q - 1))) as [Hlt|Hge];
    cbn [w_begin w_length].
  - assert (Hk1 : Z.of_nat k + 1 <= Q - 1) by lia.
    repeat split; nia.
  - rewrite Hn. repeat split; nia.
Qed.

(** ** The two loops *)

Section LoopFacts.

Context {T V : Type}.
Variable pred : T -> V -> bool.
Variable q : V.

(** All five searches have the same shape. *)
Lemma Q_ary_search_unfold a P fuel begin end_ :
  Q_ary_search a pred q P fuel begin end_ =
  (ow <- while_ fuel (fun w => _to_linear_threshold P <=? w_length w)
           (Q_ary_body a pred q)
           (mk_window begin (to_length_t (end_ - begin))) ;;
   finish pred q fuel ow).
Proof. destruct a; reflexivity. Qed.

(** A window of a partitioned range stays partitioned. *)
Lemma partitioned_sub (h : Z -> T) b e b' e' :
  partitioned pred q h b e -> b <= b' -> e' <= e ->
  partitioned pred q h b' e'.
Proof.
  intros Hp Hb He i j Hi Hij Hj. apply Hp; lia.
Qed.

(** Where a step leaves the partition point. *)
Lemma narrowed_partition (h : Z -> T) Q b len :
  2 <= Q -> Q <= len ->
  partitioned pred q h b (b + len) ->
  let n := Z.to_nat (Q - 1) in
  let w' := narrowed n (passing pred q h n b (len / Q)) b (len / Q) len in
  (forall i, b <= i < w_begin w' -> pred (h i) q = true) /\
  (w_begin w' + w_length w' < b + len ->
   pred (h (w_begin w' + w_length w')) q = false).
Proof.
  intros HQ Hlen Hpart n w'.
  destruct (fragment_bounds Q len HQ Hlen) as [H1 H2].
  assert (Hn : Z.of_nat n = Q - 1) by (unfold n; lia).
  pose proof (passing_le pred q h n b (len / Q)) as Hle.
  pose proof (passing_true pred q h n b (len / Q)) as Htrue.
  pose proof (passing_false pred q h n b (len / Q)) as Hfalse.
  subst w'. unfold narrowed.
  set (k := passing pred q h n b (len / Q)) in *.
  set (fl := len / Q) in *.
  destruct (Nat.ltb_spec k n) as [Hlt|Hge]; cbn [w_begin w_length].
  - split.
    + intros i Hi.
      apply (Hpart i (b + Z.of_nat k * fl)); try nia.
      apply Htrue. nia.
    + intros _. replace (b + Z.of_nat k * fl + fl)
        with (b + (Z.of_nat k + 1) * fl) by lia.
      apply Hfalse. exact Hlt.
  - assert (Hkn : k = n) by lia. split.
    + intros i Hi.
      apply (Hpart i (b + Z.of_nat n * fl)); try nia.
      apply Htrue. lia.
    + intros Hcontra. lia.
Qed.

(** Every probe of a step falls strictly inside the window. *)
Lemma probes_inside Q b len c :
  2 <= Q -> Q <= len -> (c <= Z.to_nat (Q - 1))%nat ->
  all_within b (b + len) (probe_log c b (len / Q) []).
Proof.
  intros HQ Hlen Hc.
  destruct (fragment_bounds Q len HQ Hlen) as [H1 H2].
  apply Forall_forall. intros p Hin.
  apply probe_log_In in Hin. destruct Hin as [j [Hj ->]]. nia.
Qed.

Lemma all_within_sub b e b' e' log :
  all_within b' e' log -> b <= b' -> e' <= e -> all_within b e log.
Proof.
  unfold all_within. rewrite !Forall_forall.
  intros Hw Hb He p Hin. specialize (Hw p Hin). lia.
Qed.

(** The narrowing loop: with a threshold of at least [Q] it ends within
    [length] iterations, reads inside the window only, and leaves a
    window that is below the threshold and brackets the partition
    point. *)
Lemma narrowing_spec a thr :
  arity_value a <= thr ->
  forall fuel w (m : machine T),
    0 <= w_length w < length_t_modulus ->
    (Z.to_nat (w_length w) < fuel)%nat ->
    exists w' log,
      while_ fuel (fun w => thr <=? w_length w) (Q_ary_body a pred q) w m =
      (Some w', mk_machine (heap m) (log ++ reads m)) /\
      w_begin w <= w_begin w' /\
      w_begin w' + w_length w' <= w_begin w + w_length w /\
      0 <= w_length w' < thr /\
      all_within (w_begin w) (w_begin w + w_length w) log /\
      (partitioned pred q (heap m) (w_begin w) (w_begin w + w_length w) ->
       (forall i, w_begin w <= i < w_begin w' -> pred (heap m i) q = true) /\
       (w_begin w' + w_length w' < w_begin w + w_length w ->
        pred (heap m (w_begin w' + w_length w')) q = false)).
Proof.
  intros Hthr. pose proof (arity_value_range a) as HQ.
  induction fuel as [|fuel IH]; intros w m Hlen Hfuel; [lia|].
  cbn [while_]. destruct (Z.leb_spec thr (w_length w)) as [Hge|Hlt].
  - unfold bind. rewrite Q_ary_body_eq by exact Hlen.
    set (n := Z.to_nat (arity_value a - 1)).
    set (fl := w_length w / arity_value a).
    set (k := passing pred q (heap m) n (w_begin w) fl).
    assert (Hk : (k <= n)%nat) by apply passing_le.
    destruct (narrowed_inside (arity_value a) k (w_begin w) (w_length w))
      as (Hb & He & Hpos & Hdec); try lia.
    fold n fl in Hb, He, Hpos, Hdec.
    set (w1 := narrowed n k (w_begin w) fl (w_length w)) in *.
    set (plog := probe_log (Nat.min (S k) n) (w_begin w) fl []).
    destruct (IH w1 (mk_machine (heap m) (plog ++ reads m)))
      as (w' & log & Hrun & Hb' & He' & Hthr' & Hin & Hpp); try lia.
    cbn [heap reads] in Hrun, Hpp.
    exists w', (log ++ plog). rewrite Hrun.
    split; [rewrite app_assoc; reflexivity|].
    repeat (split; [lia|]).
    split.
    + apply Forall_app. split.
      * eapply all_within_sub; [exact Hin | lia | lia].
      * apply probes_inside; lia.
    + intros Hpart.
      destruct (narrowed_partition (heap m) (arity_value a) (w_begin w)
                  (w_length w)) as [Hpre Hpost]; try lia; [exact Hpart|].
      fold n fl k w1 in Hpre, Hpost.
      destruct Hpp as [Hpre' Hpost'].
      { eapply partitioned_sub; [exact Hpart | lia | lia]. }
      split.
      * intros i Hi. destruct (Z_lt_ge_dec i (w_begin w1)).
        -- apply Hpre. lia.
        -- apply Hpre'. lia.
      * intros Hend. destruct (Z_lt_ge_dec (w_begin w' + w_length w')
                                 (w_begin w1 + w_length w1)) as [Hl|Hg].
        -- apply Hpost'. exact Hl.
        -- replace (w_begin w' + w_length w')
             with (w_begin w1 + w_length w1) by lia.
           apply Hpost. lia.
  - exists w, []. unfold ret. destruct m as [hp rd]. cbn [heap reads app].
    split; [reflexivity|].
    repeat (split; [lia|]).
    split; [constructor|].
    intros _. split; intros; lia.
Qed.

End LoopFacts.

(** ** The linear scan *)

Section ScanFacts.

Context {T V : Type}.
Variable pred : T -> V -> bool.
Variable q : V.

Lemma linear_search_eq : forall fuel b e (m : machine T),
  b <= e -> (Z.to_nat (e - b) < fuel)%nat ->
  linear_search pred q fuel b e m =
  (Some (first_failing pred q (heap m) (Z.to_nat (e - b)) b),
   mk_machine (heap m)
     (scan_log (scan_reads pred q (heap m) (Z.to_nat (e - b)) b) b (reads m))).
Proof.
  induction fuel as [|fuel IH]; intros b e m Hbe Hfuel; [lia|].
  cbn [linear_search]. destruct (Z.eqb_spec b e) as [->|Hne]; cbn [negb].
  - rewrite Z.sub_diag. destruct m; reflexivity.
  - assert (Hn : Z.to_nat (e - b) = S (Z.to_nat (e - (b + 1)))) by lia.
    rewrite Hn. cbn [first_failing scan_reads].
    unfold bind, deref. cbn [heap reads].
    destruct (pred (heap m b) q).
    + rewrite IH by lia. reflexivity.
    + reflexivity.
Qed.

Lemma first_failing_point (h : Z -> T) n : forall b,
  partition_point pred q h b (b + Z.of_nat n) (first_failing pred q h n b).
Proof.
  induction n as [|n IH]; intros b; cbn [first_failing].
  - repeat split; intros; lia.
  - destruct (pred (h b) q) eqn:Hp.
    + destruct (IH (b + 1)) as (Hr & Hpre & Hpost).
      repeat split; try lia.
      * intros i Hi. destruct (Z.eq_dec i b) as [->|Hne]; [exact Hp|].
        apply Hpre. lia.
      * intros Hlt. apply Hpost. lia.
    + repeat split; intros; try lia. exact Hp.
Qed.

Lemma first_failing_ext (h1 h2 : Z -> T) n : forall b,
  (forall i, b <= i < b + Z.of_nat n -> h1 i = h2 i) ->
  first_failing pred q h1 n b = first_failing pred q h2 n b /\
  scan_reads pred q h1 n b = scan_reads pred q h2 n b.
Proof.
  induction n as [|n IH]; intros b Hag; cbn [first_failing scan_reads].
  - split; reflexivity.
  - rewrite (Hag b) by lia.
    destruct (IH (b + 1)) as [H1 H2]; [intros; apply Hag; lia|].
    rewrite H1, H2. split; reflexivity.
Qed.

Lemma scan_reads_le (h : Z -> T) n :
  forall b, (scan_reads pred q h n b <= n)%nat.
Proof.
  induction n as [|n IH]; intros b; cbn [scan_reads]; [lia|].
  destruct (pred _ q); [specialize (IH (b + 1))|]; lia.
Qed.

Lemma scan_log_app c : forall b log,
  scan_log c b log = scan_log c b [] ++ log.
Proof.
  induction c as [|c IH]; intros b log; cbn [scan_log]; [reflexivity|].
  rewrite IH. rewrite (IH _ [b]). rewrite <- app_assoc. reflexivity.
Qed.

Lemma scan_log_within c : forall b,
  all_within b (b + Z.of_nat c) (scan_log c b []).
Proof.
  induction c as [|c IH]; intros b; cbn [scan_log]; [constructor|].
  rewrite scan_log_app. apply Forall_app. split.
  - eapply all_within_sub; [apply IH | lia | lia].
  - constructor; [lia | constructor].
Qed.

(** Fuel that was enough stays enough. *)
Lemma while_fuel_mono cond (body : window -> M T window) :
  forall fuel w m w' m',
    while_ fuel cond body w m = (Some w', m') ->
    forall fuel', (fuel <= fuel')%nat ->
      while_ fuel' cond body w m = (Some w', m').
Proof.
  induction fuel as [|fuel IH]; intros w m w' m' Hrun fuel' Hle.
  - discriminate Hrun.
  - destruct fuel' as [|fuel']; [lia|].
    cbn [while_] in *. destruct (cond w); [|exact Hrun].
    unfold bind in *. destruct (body w m) as [w1 m1].
    apply (IH _ _ _ _ Hrun). lia.
Qed.

(** The whole search, for a threshold of at least [Q]: with fuel above
    the length it returns a position, the same for every such fuel; it
    leaves the store alone and reads inside the window only; on a
    partitioned window the position is the partition point. *)
Lemma Q_ary_search_spec a P begin end_ (m : machine T) :
  arity_value a <= _to_linear_threshold P ->
  let len := to_length_t (end_ - begin) in
  exists r log,
    (forall fuel, (Z.to_nat len < fuel)%nat ->
       Q_ary_search a pred q P fuel begin end_ m =
       (Some r, mk_machine (heap m) (log ++ reads m))) /\
    all_within begin (begin + len) log /\
    begin <= r <= begin + len /\
    (partitioned pred q (heap m) begin (begin + len) ->
     partition_point pred q (heap m) begin (begin + len) r).
Proof.
  intros Hthr len.
  pose proof (to_length_t_range (end_ - begin)) as Hlen. fold len in Hlen.
  destruct (narrowing_spec pred q a _ Hthr (S (Z.to_nat len))
              (mk_window begin len) m)
    as (w' & log & Hrun & Hb & He & Hw & Hin & Hpp);
    cbn [w_begin w_length] in *; try lia.
  set (n := Z.to_nat (w_begin w' + w_length w' - w_begin w')).
  set (r := first_failing pred q (heap m) n (w_begin w')).
  set (slog := scan_log (scan_reads pred q (heap m) n (w_begin w'))
                 (w_begin w') []).
  assert (Hn : Z.of_nat n = w_length w') by (unfold n; lia).
  destruct (first_failing_point (heap m) n (w_begin w'))
    as (Hr & Hpre & Hpost). fold r in Hr, Hpre, Hpost. rewrite Hn in *.
  exists r, (slog ++ log). split; [|split; [|split]].
  - intros fuel Hfuel. rewrite Q_ary_search_unfold. unfold bind.
    fold len. rewrite (while_fuel_mono _ _ _ _ _ _ _ Hrun) by lia.
    unfold finish. rewrite linear_search_eq by lia.
    cbn [heap reads]. fold n r. rewrite scan_log_app.
    rewrite app_assoc. reflexivity.
  - apply Forall_app. split; [|exact Hin].
    eapply all_within_sub.
    + apply scan_log_within.
    + lia.
    + pose proof (scan_reads_le (heap m) n (w_begin w')). lia.
  - lia.
  - intros Hpart. destruct (Hpp Hpart) as [Hpre' Hpost'].
    split; [lia|]. split.
    + intros i Hi. destruct (Z_lt_ge_dec i (w_begin w')).
      * apply Hpre'. lia.
      * apply Hpre. lia.
    + intros Hlt. destruct (Z_lt_ge_dec r (w_begin w' + w_length w')).
      * apply Hpost. lia.
      * replace r with (w_begin w' + w_length w') by lia.
        apply Hpost'. lia.
Qed.

End ScanFacts.

(** ** Runs on stores that agree on the range *)

Section Agreement.

Context {T V : Type}.
Variable pred : T -> V -> bool.
Variable q : V.

Lemma narrowing_ext a thr :
  arity_value a <= thr ->
  forall fuel w (m1 m2 : machine T),
    0 <= w_length w < length_t_modulus ->
    agree (heap m1) (heap m2) (w_begin w) (w_begin w + w_length w) ->
    exists ow log,
      while_ fuel (fun w => thr <=? w_length w) (Q_ary_body a pred q) w m1 =
      (ow, mk_machine (heap m1) (log ++ reads m1)) /\
      while_ fuel (fun w => thr <=? w_length w) (Q_ary_body a pred q) w m2 =
      (ow, mk_machine (heap m2) (log ++ reads m2)) /\
      all_within (w_begin w) (w_begin w + w_length w) log /\
      forall w', ow = Some w' ->
        w_begin w <= w_begin w' /\
        w_begin w' + w_length w' <= w_begin w + w_length w /\
        0 <= w_length w'.
Proof.
  intros Hthr. pose proof (arity_value_range a) as HQ.
  induction fuel as [|fuel IH]; intros w m1 m2 Hlen Hag.
  - exists None, []. destruct m1, m2.
    repeat split; try discriminate. constructor.
  - cbn [while_]. destruct (Z.leb_spec thr (w_length w)) as [Hge|Hlt].
    + unfold bind. rewrite !Q_ary_body_eq by exact Hlen.
      set (n := Z.to_nat (arity_value a - 1)).
      set (fl := w_length w / arity_value a).
      destruct (fragment_bounds (arity_value a) (w_length w)) as [H1 H2];
        try lia. fold fl in H1, H2.
      assert (Hk : passing pred q (heap m1) n (w_begin w) fl =
                   passing pred q (heap m2) n (w_begin w) fl).
      { apply passing_ext. intros j Hj. apply Hag. unfold n in Hj. nia. }
      rewrite <- Hk. set (k := passing pred q (heap m1) n (w_begin w) fl).
      assert (Hkn : (k <= n)%nat) by apply passing_le.
      destruct (narrowed_inside (arity_value a) k (w_begin w) (w_length w))
        as (Hb & He & Hpos & Hdec); try lia.
      fold n fl in Hb, He, Hpos, Hdec.
      set (w1 := narrowed n k (w_begin w) fl (w_length w)) in *.
      set (plog := probe_log (Nat.min (S k) n) (w_begin w) fl []).
      destruct (IH w1 (mk_machine (heap m1) (plog ++ reads m1))
                  (mk_machine (heap m2) (plog ++ reads m2)))
        as (ow & log & Hr1 & Hr2 & Hlog & Hin); try lia.
      { intros i Hi. apply Hag. lia. }
      cbn [heap reads] in Hr1, Hr2.
      exists ow, (log ++ plog). rewrite Hr1, Hr2, !app_assoc.
      split; [reflexivity|]. split; [reflexivity|].
      split.
      * apply Forall_app. split.
        -- eapply all_within_sub; [exact Hlog | lia | lia].
        -- apply probes_inside; lia.
      * intros w' Hw'. specialize (Hin w' Hw'). lia.
    + exists (Some w), []. destruct m1, m2. unfold ret.
      split; [reflexivity|]. split; [reflexivity|].
      split; [constructor|].
      intros w' [= <-]. lia.
Qed.

Lemma linear_search_ext :
  forall fuel b e (m1 m2 : machine T),
    b <= e -> agree (heap m1) (heap m2) b e ->
    exists r log,
      linear_search pred q fuel b e m1 =
      (r, mk_machine (heap m1) (log ++ reads m1)) /\
      linear_search pred q fuel b e m2 =
      (r, mk_machine (heap m2) (log ++ reads m2)) /\
      all_within b e log /\
      forall r', r = Some r' -> b <= r' <= e.
Proof.
  induction fuel as [|fuel IH]; intros b e m1 m2 Hbe Hag.
  - exists None, []. destruct m1, m2.
    repeat split; try discriminate. constructor.
  - cbn [linear_search]. destruct (Z.eqb_spec b e) as [->|Hne]; cbn [negb].
    + exists (Some e), []. destruct m1, m2.
      split; [reflexivity|]. split; [reflexivity|].
      split; [constructor|]. intros r' [= <-]. lia.
    + unfold bind, deref. cbn [heap reads].
      rewrite <- (Hag b) by lia. destruct (pred (heap m1 b) q).
      * destruct (IH (b + 1) e (mk_machine (heap m1) (b :: reads m1))
                    (mk_machine (heap m2) (b :: reads m2)))
          as (r & log & Hr1 & Hr2 & Hin & Hres); try lia.
        { intros i Hi. apply Hag. lia. }
        cbn [heap reads] in Hr1, Hr2.
        exists r, (log ++ [b]). rewrite Hr1, Hr2, <- !app_assoc.
        split; [reflexivity|]. split; [reflexivity|].
        split.
        -- apply Forall_app. split.
           ++ eapply all_within_sub; [exact Hin | lia | lia].
           ++ constructor; [lia | constructor].
        -- intros r' Hr'. specialize (Hres r' Hr'). lia.
      * exists (Some b), [b]. unfold ret.
        split; [reflexivity|]. split; [reflexivity|].
        split; [constructor; [lia | constructor]|].
        intros r' [= <-]. lia.
Qed.

(** The search sees the elements of its window only: on two stores that
    agree there it returns the same position after the same reads, for
    any fuel. *)
Lemma Q_ary_search_ext a P fuel begin end_ (m1 m2 : machine T) :
  arity_value a <= _to_linear_threshold P ->
  agree (heap m1) (heap m2) begin (begin + to_length_t (end_ - begin)) ->
  exists r log,
    Q_ary_search a pred q P fuel begin end_ m1 =
    (r, mk_machine (heap m1) (log ++ reads m1)) /\
    Q_ary_search a pred q P fuel begin end_ m2 =
    (r, mk_machine (heap m2) (log ++ reads m2)) /\
    all_within begin (begin + to_length_t (end_ - begin)) log /\
    forall r', r = Some r' ->
      begin <= r' <= begin + to_length_t (end_ - begin).
Proof.
  intros Hthr Hag.
  pose proof (to_length_t_range (end_ - begin)) as Hlen.
  destruct (narrowing_ext a _ Hthr fuel
              (mk_window begin (to_length_t (end_ - begin))) m1 m2)
    as (ow & log & Hr1 & Hr2 & Hlog & Hin); cbn [w_begin w_length]; try lia.
  { exact Hag. }
  cbn [w_begin w_length] in Hlog.
  rewrite !Q_ary_search_unfold. unfold bind. rewrite Hr1, Hr2.
  destruct ow as [w'|]; cbn [finish].
  - destruct (Hin w' eq_refl) as (Hb & He & Hpos).
    cbn [w_begin w_length] in Hb, He.
    destruct (linear_search_ext fuel (w_begin w') (w_begin w' + w_length w')
                (mk_machine (heap m1) (log ++ reads m1))
                (mk_machine (heap m2) (log ++ reads m2)))
      as (r & slog & Hs1 & Hs2 & Hslog & Hres); try lia.
    { intros i Hi. apply Hag. lia. }
    cbn [heap reads] in Hs1, Hs2.
    exists r, (slog ++ log). rewrite Hs1, Hs2, !app_assoc.
    split; [reflexivity|]. split; [reflexivity|]. split.
    + apply Forall_app. split; [|exact Hlog].
      eapply all_within_sub; [exact Hslog | lia | lia].
    + intros r' Hr'. specialize (Hres r' Hr'). lia.
  - exists None, log. split; [reflexivity|]. split; [reflexivity|].
    split; [exact Hlog | discriminate].
Qed.

End Agreement.

(** ** Partition points, sorted ranges and the reference search *)

Section PartitionFacts.

Context {T V : Type}.
Variable pred : T -> V -> bool.
Variable q : V.
Variable h : Z -> T.

Lemma partition_point_unique b e r1 r2 :
  partition_point pred q h b e r1 -> partition_point pred q h b e r2 ->
  r1 = r2.
Proof.
  intros (Hr1 & Hpre1 & Hpost1) (Hr2 & Hpre2 & Hpost2).
  destruct (Z.lt_trichotomy r1 r2) as [Hlt|[Heq|Hgt]]; [|exact Heq|].
  - rewrite Hpre2 in Hpost1 by lia. discriminate Hpost1. lia.
  - rewrite Hpre1 in Hpost2 by lia. discriminate Hpost2. lia.
Qed.

(** On a partitioned range every position from the point on fails. *)
Lemma partition_point_after b e r :
  partitioned pred q h b e -> partition_point pred q h b e r ->
  forall i, r <= i < e -> pred (h i) q = false.
Proof.
  intros Hpart (Hr & _ & Hpost) i Hi.
  destruct (pred (h i) q) eqn:Hp; [|reflexivity].
  assert (Hr' : pred (h r) q = true).
  { apply (Hpart r i); try lia. exact Hp. }
  rewrite Hpost in Hr' by lia. discriminate Hr'.
Qed.

Lemma binary_search_point : forall fuel first len,
  0 <= len -> (Z.to_nat len <= fuel)%nat ->
  partitioned pred q h first (first + len) ->
  partition_point pred q h first (first + len)
    (binary_search pred q h fuel first len).
Proof.
  induction fuel as [|fuel IH]; intros first len Hlen Hfuel Hpart.
  - cbn [binary_search]. repeat split; intros; lia.
  - cbn [binary_search]. destruct (Z.ltb_spec 0 len) as [Hpos|Hz].
    + assert (Hhalf : 0 <= len / 2 < len).
      { split; [apply Z.div_pos; lia | apply Z.div_lt_upper_bound; lia]. }
      destruct (pred (h (first + len / 2)) q) eqn:Hmid.
      * destruct (IH (first + len / 2 + 1) (len - len / 2 - 1))
          as (Hr & Hpre & Hpost); try lia.
        { eapply partitioned_sub; [exact Hpart | lia | lia]. }
        replace (first + len / 2 + 1 + (len - len / 2 - 1))
          with (first + len) in * by lia.
        split; [lia|]. split; [|exact Hpost].
        intros i Hi. destruct (Z_le_gt_dec i (first + len / 2)).
        -- apply (Hpart i (first + len / 2)); try lia. exact Hmid.
        -- apply Hpre. lia.
      * destruct (IH first (len / 2)) as (Hr & Hpre & Hpost); try lia.
        { eapply partitioned_sub; [exact Hpart | lia | lia]. }
        split; [lia|]. split; [exact Hpre|].
        intros _. destruct (Z.eq_dec (binary_search pred q h fuel first
                                        (len / 2)) (first + len / 2))
          as [->|Hne]; [exact Hmid|].
        apply Hpost. lia.
    + repeat split; intros; lia.
Qed.

End PartitionFacts.

(** A range sorted by a strict weak ordering is partitioned by it
    against any query. *)
Lemma sorted_partitioned {T} (lt : T -> T -> bool) (h : Z -> T) b e q :
  strict_weak_order lt -> sorted_range lt h b e ->
  partitioned lt q h b e.
Proof.
  intros Hswo Hsorted i j Hi Hij Hj Hp.
  destruct (Z.eq_dec i j) as [->|Hne]; [exact Hp|].
  destruct (swo_negtrans lt Hswo (h j) (h i) q Hp) as [Hji|Hiq];
    [|exact Hiq].
  rewrite (Hsorted i j) in Hji by lia. discriminate Hji.
Qed.

Section OrderFacts.

Context {T : Type} `{OrderedLaws T}.

Lemma less_strict_weak_order : strict_weak_order (less (T := T)).
Proof.
  split.
  - apply less_irrefl.
  - apply less_trans.
  - apply less_negtrans.
Qed.

Lemma sorted_partitioned_less (h : Z -> T) b e q :
  sorted_range less h b e -> partitioned less q h b e.
Proof. apply sorted_partitioned. apply less_strict_weak_order. Qed.

Lemma sorted_partitioned_less_equal (h : Z -> T) b e q :
  sorted_range less h b e -> partitioned less_equal q h b e.
Proof.
  intros Hsorted i j Hi Hij Hj Hp.
  rewrite less_equal_less in *. apply negb_true_iff in Hp.
  apply negb_true_iff.
  destruct (Z.eq_dec i j) as [->|Hne]; [exact Hp|].
  destruct (less q (h i)) eqn:Hqi; [|reflexivity].
  destruct (less_negtrans q (h j) (h i) Hqi) as [Hqj|Hji].
  - rewrite Hqj in Hp. discriminate Hp.
  - rewrite (Hsorted i j) in Hji by lia. discriminate Hji.
Qed.

(** The wrappers are the search at [less] and [less_equal]. *)
Lemma Q_ary_lower_bound_unfold a P fuel begin end_ (q : T) :
  Q_ary_lower_bound a P fuel begin end_ q =
  Q_ary_search a less q P fuel begin end_.
Proof. destruct a; reflexivity. Qed.

Lemma Q_ary_upper_bound_unfold a P fuel begin end_ (q : T) :
  Q_ary_upper_bound a P fuel begin end_ q =
  Q_ary_search a less_equal q P fuel begin end_.
Proof. destruct a; reflexivity. Qed.

Lemma Q_ary_contains_unfold a P fuel begin end_ (q : T) :
  Q_ary_contains a P fuel begin end_ q =
  (result <- Q_ary_lower_bound a P fuel begin end_ q ;;
   found end_ q result).
Proof. destruct a; reflexivity. Qed.

End OrderFacts.

Lemma default_threshold_ok a :
  arity_value a <= _to_linear_threshold (Q_ary_search_parameters a).
Proof. rewrite default_threshold. pose proof (arity_value_range a). lia. Qed.

(** ** Which probe fails first *)

Section FirstFailure.

Context {T V : Type}.
Variable pred : T -> V -> bool.
Variable q : V.
Variable h : Z -> T.

Lemma passing_first_failure n b fl k :
  1 <= k <= Z.of_nat n ->
  (forall j, 1 <= j < k -> pred (h (b + j * fl)) q = true) ->
  pred (h (b + k * fl)) q = false ->
  Z.of_nat (passing pred q h n b fl) = k - 1.
Proof.
  intros Hk Hbefore Hat.
  pose proof (passing_le pred q h n b fl) as Hle.
  pose proof (passing_true pred q h n b fl) as Htrue.
  pose proof (passing_false pred q h n b fl) as Hfalse.
  set (p := passing pred q h n b fl) in *.
  destruct (Z.lt_trichotomy (Z.of_nat p) (k - 1)) as [Hlt|[Heq|Hgt]].
  - rewrite Hbefore in Hfalse by lia. discriminate Hfalse. lia.
  - exact Heq.
  - rewrite Htrue in Hat by lia. discriminate Hat.
Qed.

Lemma passing_all n b fl :
  (forall j, 1 <= j <= Z.of_nat n -> pred (h (b + j * fl)) q = true) ->
  passing pred q h n b fl = n.
Proof.
  intros Hall.
  pose proof (passing_le pred q h n b fl) as Hle.
  pose proof (passing_false pred q h n b fl) as Hfalse.
  set (p := passing pred q h n b fl) in *.
  destruct (Nat.eq_dec p n) as [Heq|Hne]; [exact Heq|].
  rewrite Hall in Hfalse by lia. discriminate Hfalse. lia.
Qed.

End FirstFailure.

(** ** Sorted arrays *)

(** A range is sorted as soon as no element is below its left
    neighbour. *)
Lemma sorted_range_adjacent {T} (lt : T -> T -> bool) (h : Z -> T) b e :
  strict_weak_order lt ->
  (forall i, b <= i -> i + 1 < e -> lt (h (i + 1)) (h i) = false) ->
  sorted_range lt h b e.
Proof.
  intros Hswo Hadj i j Hi Hij Hj.
  remember (Z.to_nat (j - i - 1)) as d eqn:Hd.
  revert j Hij Hj Hd. induction d as [|d IH]; intros j Hij Hj Hd.
  - replace j with (i + 1) by lia. apply Hadj; lia.
  - destruct (lt (h j) (h i)) eqn:Hji; [|reflexivity].
    destruct (swo_negtrans lt Hswo (h j) (h (j - 1)) (h i) Hji) as [H1|H2].
    + pose proof (Hadj (j - 1)) as Hj1.
      replace (j - 1 + 1) with j in Hj1 by lia.
      rewrite Hj1 in H1 by lia. discriminate H1.
    + rewrite (IH (j - 1)) in H2 by lia. discriminate H2.
Qed.

Lemma ltb_strict_weak_order : strict_weak_order Z.ltb.
Proof. exact (less_strict_weak_order (T := Z)). Qed.

Lemma test_ordinary_sorted :
  sorted_range Z.ltb (array_heap test_ordinary) 0 13.
Proof.
  apply sorted_range_adjacent; [exact ltb_strict_weak_order|].
  intros i Hi Hi'.
  assert (Hc : i = 0 \/ i = 1 \/ i = 2 \/ i = 3 \/ i = 4 \/ i = 5 \/ i = 6 \/
               i = 7 \/ i = 8 \/ i = 9 \/ i = 10 \/ i = 11) by lia.
  repeat (destruct Hc as [-> | Hc]; [reflexivity|]). subst i. reflexivity.
Qed.

Lemma test_fragmented_sorted :
  sorted_range Z.ltb (array_heap test_fragmented) 0 13.
Proof.
  apply sorted_range_adjacent; [exact ltb_strict_weak_order|].
  intros i Hi Hi'.
  assert (Hc : i = 0 \/ i = 1 \/ i = 2 \/ i = 3 \/ i = 4 \/ i = 5 \/ i = 6 \/
               i = 7 \/ i = 8 \/ i = 9 \/ i = 10 \/ i = 11) by lia.
  repeat (destruct Hc as [-> | Hc]; [reflexivity|]). subst i. reflexivity.
Qed.

Lemma long_range_sorted : sorted_range Z.ltb (heap long_range) 0 (2 ^ 32).
Proof.
  intros i j Hi Hij Hj. cbn [heap long_range]. apply Z.ltb_ge. lia.
Qed.

(** The effect of the membership test after the lower bound. *)
Lemma found_eq {T} `{Ordered T} end_ (q : T) r (m : machine T) :
  found end_ q (Some r) m =
  (Some (negb (r =? end_) && negb (less q (heap m r))),
   mk_machine (heap m) ((if r =? end_ then [] else [r]) ++ reads m)).
Proof.
  unfold found. destruct (r =? end_); cbn [negb andb app].
  - destruct m; reflexivity.
  - reflexivity.
Qed.

(** ** The bounds on a sorted range *)

Section BoundFacts.

Context {T : Type} `{OrderedLaws T}.

(** The lower and the upper bound of the part of a sorted range that the
    32-bit length covers, at the default threshold. *)
Lemma bounds_spec a begin end_ (q : T) (m : machine T) :
  sorted_range less (heap m) begin end_ -> begin <= end_ ->
  let P := Q_ary_search_parameters a in
  let e := begin + to_length_t (end_ - begin) in
  exists lb llog ub ulog,
    (forall fuel, (Z.to_nat (to_length_t (end_ - begin)) < fuel)%nat ->
       Q_ary_lower_bound a P fuel begin end_ q m =
       (Some lb, mk_machine (heap m) (llog ++ reads m)) /\
       Q_ary_upper_bound a P fuel begin end_ q m =
       (Some ub, mk_machine (heap m) (ulog ++ reads m))) /\
    partition_point less q (heap m) begin e lb /\
    partition_point less_equal q (heap m) begin e ub /\
    e <= end_.
Proof.
  intros Hsorted Hbe P e.
  pose proof (to_length_t_le (end_ - begin)) as Hle.
  assert (He : e <= end_) by (unfold e; lia).
  assert (Hsorted' : sorted_range less (heap m) begin e).
  { intros i j Hi Hij Hj. apply Hsorted; lia. }
  destruct (Q_ary_search_spec less q a P begin end_ m
              (default_threshold_ok a)) as (lb & llog & Hl & _ & _ & Hlp).
  destruct (Q_ary_search_spec less_equal q a P begin end_ m
              (default_threshold_ok a)) as (ub & ulog & Hu & _ & _ & Hup).
  exists lb, llog, ub, ulog. split; [|split; [|split]].
  - intros fuel Hfuel.
    rewrite Q_ary_lower_bound_unfold, Q_ary_upper_bound_unfold.
    rewrite (Hl fuel Hfuel), (Hu fuel Hfuel). split; reflexivity.
  - apply Hlp. apply sorted_partitioned_less. exact Hsorted'.
  - apply Hup. apply sorted_partitioned_less_equal. exact Hsorted'.
  - exact He.
Qed.

(** The point for [<] is not after the point for [<=]. *)
Lemma lower_le_upper (h : Z -> T) b e (q : T) lb ub :
  partition_point less q h b e lb ->
  partition_point less_equal q h b e ub ->
  lb <= ub.
Proof.
  intros (Hl & Hlpre & _) (Hu & _ & Hupost).
  destruct (Z_le_gt_dec lb ub) as [Hle|Hgt]; [exact Hle|].
  assert (H1 : less (h ub) q = true) by (apply Hlpre; lia).
  assert (H2 : less_equal (h ub) q = false) by (apply Hupost; lia).
  rewrite less_equal_less in H2. apply negb_false_iff in H2.
  pose proof (less_trans _ _ _ H1 H2) as H3.
  rewrite less_irrefl in H3. discriminate H3.
Qed.

End BoundFacts.

(** ** The reference bounds *)

Section ReferenceFacts.

Context {T : Type} `{OrderedLaws T}.

Lemma reference_lower_bound_point (h : Z -> T) begin end_ (v : T) :
  begin <= end_ -> sorted_range less h begin end_ ->
  partition_point less v h begin end_ (reference_lower_bound h begin end_ v).
Proof.
  intros Hbe Hsorted. unfold reference_lower_bound.
  replace end_ with (begin + (end_ - begin)) at 1 by lia.
  apply binary_search_point; [lia | apply Nat.le_refl |].
  replace (begin + (end_ - begin)) with end_ by lia.
  apply sorted_partitioned_less. exact Hsorted.
Qed.

Lemma reference_upper_bound_point (h : Z -> T) begin end_ (v : T) :
  begin <= end_ -> sorted_range less h begin end_ ->
  partition_point less_equal v h begin end_
    (reference_upper_bound h begin end_ v).
Proof.
  intros Hbe Hsorted. unfold reference_upper_bound.
  replace end_ with (begin + (end_ - begin)) at 1 by lia.
  apply binary_search_point; [lia | apply Nat.le_refl |].
  replace (begin + (end_ - begin)) with end_ by lia.
  apply sorted_partitioned_less_equal. exact Hsorted.
Qed.

End ReferenceFacts.

(** * The claims *)

(** C1, as stated, fails on a range of 2^32 elements: its length does
    not fit [length_t], the cast leaves 0, and every arity returns
    [begin] although every element satisfies the predicate, where the
    claim gives [end]. *)
Lemma C1_long_range_counterexample :
  strict_weak_order Z.ltb /\
  sorted_range Z.ltb (heap long_range) 0 (2 ^ 32) /\
  (forall i, 0 <= i < 2 ^ 32 -> Z.ltb (heap long_range i) (2 ^ 32) = true) /\
  (forall a,
     fst (Q_ary_search a Z.ltb (2 ^ 32) (Q_ary_search_parameters a) 8
            0 (2 ^ 32) long_range) = Some 0) /\
  ~ partition_point Z.ltb (2 ^ 32) (heap long_range) 0 (2 ^ 32) 0.
Proof.
  split; [exact ltb_strict_weak_order|].
  split; [exact long_range_sorted|].
  split; [intros i Hi; cbn [heap long_range]; apply Z.ltb_lt; lia|].
  split; [intros a; destruct a; vm_compute; reflexivity|].
  intros (_ & _ & Hpost).
  assert (Hlt : 0 < 2 ^ 32) by lia.
  specialize (Hpost Hlt). vm_compute in Hpost. discriminate Hpost.
Qed.

(** C1, amended: for every arity Q in 2..6, every strict weak ordering
    predicate, every range of fewer than 2^32 elements sorted by it and
    every query, [_Q_ary_search] returns the first position of [begin,
    end) at which [pred( element, q )] is false, [end] when every
    element satisfies the predicate, and [begin] (== [end]) when the
    range is empty; no position from the result on satisfies the
    predicate. *)
Theorem C1_search_partition_point {T} (a : arity) (pred : T -> T -> bool)
    (q : T) (begin end_ : Z) (m : machine T) :
  strict_weak_order pred ->
  sorted_range pred (heap m) begin end_ ->
  begin <= end_ ->
  end_ - begin < length_t_modulus ->
  exists r,
    (forall fuel, (Z.to_nat (end_ - begin) < fuel)%nat ->
       fst (Q_ary_search a pred q (Q_ary_search_parameters a) fuel
              begin end_ m) = Some r) /\
    partition_point pred q (heap m) begin end_ r /\
    (forall i, r <= i < end_ -> pred (heap m i) q = false) /\
    (begin = end_ -> r = begin).
Proof.
  intros Hswo Hsorted Hbe Hsmall.
  pose proof (sorted_partitioned pred (heap m) begin end_ q Hswo Hsorted)
    as Hpart.
  destruct (Q_ary_search_spec pred q a (Q_ary_search_parameters a)
              begin end_ m (default_threshold_ok a))
    as (r & log & Hrun & _ & _ & Hpp).
  rewrite to_length_t_small in Hrun, Hpp by lia.
  replace (begin + (end_ - begin)) with end_ in Hpp by lia.
  specialize (Hpp Hpart).
  exists r. split; [|split; [|split]].
  - intros fuel Hfuel. rewrite (Hrun fuel Hfuel). reflexivity.
  - exact Hpp.
  - apply (partition_point_after pred q (heap m) begin end_ r Hpart Hpp).
  - destruct Hpp as (Hr & _). lia.
Qed.

Lemma C1_search_partition_point_witness :
  exists r,
    (forall fuel, (Z.to_nat (13 - 0) < fuel)%nat ->
       fst (Q_ary_search Q5 Z.ltb 20 (Q_ary_search_parameters Q5) fuel
              0 13 (array_machine test_ordinary)) = Some r) /\
    partition_point Z.ltb 20 (array_heap test_ordinary) 0 13 r /\
    (forall i, r <= i < 13 -> Z.ltb (array_heap test_ordinary i) 20 = false) /\
    (0 = 13 -> r = 0).
Proof.
  apply (C1_search_partition_point Q5 Z.ltb 20 0 13
           (array_machine test_ordinary)).
  - exact ltb_strict_weak_order.
  - exact test_ordinary_sorted.
  - lia.
  - vm_compute. reflexivity.
Defined.

(** C2, as stated, fails on the same range of 2^32 elements: the
    reference bounds of a query above every element are the end
    position, the Q-ary bounds are [begin]. *)
Lemma C2_long_range_counterexample :
  sorted_range less (heap long_range) 0 (2 ^ 32) /\
  fst (Q_ary_lower_bound Q2 (Q_ary_search_parameters Q2) 8 0 (2 ^ 32)
         (2 ^ 32) long_range) = Some 0 /\
  reference_lower_bound (heap long_range) 0 (2 ^ 32) (2 ^ 32) = 2 ^ 32 /\
  fst (Q_ary_upper_bound Q2 (Q_ary_search_parameters Q2) 8 0 (2 ^ 32)
         (2 ^ 32) long_range) = Some 0 /\
  reference_upper_bound (heap long_range) 0 (2 ^ 32) (2 ^ 32) = 2 ^ 32.
Proof.
  assert (Hbe : 0 <= 2 ^ 32) by lia.
  split; [exact long_range_sorted|].
  split; [vm_compute; reflexivity|].
  split.
  { apply (partition_point_unique less (2 ^ 32) (heap long_range)
             0 (2 ^ 32)).
    - apply reference_lower_bound_point; [exact Hbe|].
      exact long_range_sorted.
    - split; [lia|]. split; [|intros Hlt; lia].
      intros i Hi. cbn. apply Z.ltb_lt. lia. }
  split; [vm_compute; reflexivity|].
  apply (partition_point_unique less_equal (2 ^ 32) (heap long_range)
           0 (2 ^ 32)).
  - apply reference_upper_bound_point; [exact Hbe|].
    exact long_range_sorted.
  - split; [lia|]. split; [|intros Hlt; lia].
    intros i Hi. cbn. apply Z.leb_le. lia.
Qed.

(** C2, amended: for every arity Q in 2..6, every sorted range of fewer
    than 2^32 elements and every query v, the Q-ary lower bound is the
    position the reference binary search lower bound returns, the first
    position whose element is not less than v, and the Q-ary upper
    bound is the position the reference upper bound returns, the first
    position whose element is strictly greater than v. *)
Theorem C2_bounds_agree_with_reference {T} `{OrderedLaws T} (a : arity)
    (begin end_ : Z) (v : T) (m : machine T) (fuel : nat) :
  sorted_range less (heap m) begin end_ ->
  begin <= end_ ->
  end_ - begin < length_t_modulus ->
  (Z.to_nat (end_ - begin) < fuel)%nat ->
  fst (Q_ary_lower_bound a (Q_ary_search_parameters a) fuel begin end_ v m)
  = Some (reference_lower_bound (heap m) begin end_ v) /\
  fst (Q_ary_upper_bound a (Q_ary_search_parameters a) fuel begin end_ v m)
  = Some (reference_upper_bound (heap m) begin end_ v) /\
  partition_point less v (heap m) begin end_
    (reference_lower_bound (heap m) begin end_ v) /\
  partition_point less_equal v (heap m) begin end_
    (reference_upper_bound (heap m) begin end_ v).
Proof.
  intros Hsorted Hbe Hsmall Hfuel.
  pose proof (reference_lower_bound_point (heap m) begin end_ v Hbe Hsorted)
    as Hrl.
  pose proof (reference_upper_bound_point (heap m) begin end_ v Hbe Hsorted)
    as Hru.
  destruct (bounds_spec a begin end_ v m Hsorted Hbe)
    as (lb & llog & ub & ulog & Hrun & Hlp & Hup & _).
  rewrite to_length_t_small in Hrun, Hlp, Hup by lia.
  replace (begin + (end_ - begin)) with end_ in Hlp, Hup by lia.
  destruct (Hrun fuel Hfuel) as [Hl Hu]. rewrite Hl, Hu. cbn [fst].
  rewrite (partition_point_unique _ _ _ _ _ _ _ Hlp Hrl).
  rewrite (partition_point_unique _ _ _ _ _ _ _ Hup Hru).
  repeat split; try apply Hrl; try apply Hru.
Qed.

Lemma C2_bounds_agree_with_reference_witness :
  fst (Q_ary_lower_bound Q3 (Q_ary_search_parameters Q3) 14 0 13 7
         (array_machine test_fragmented))
  = Some (reference_lower_bound (array_heap test_fragmented) 0 13 7) /\
  fst (Q_ary_upper_bound Q3 (Q_ary_search_parameters Q3) 14 0 13 7
         (array_machine test_fragmented))
  = Some (reference_upper_bound (array_heap test_fragmented) 0 13 7).
Proof.
  destruct (C2_bounds_agree_with_reference Q3 0 13 7
              (array_machine test_fragmented) 14)
    as (Hl & Hu & _).
  - exact test_fragmented_sorted.
  - lia.
  - vm_compute. reflexivity.
  - vm_compute. apply le_n.
  - split; [exact Hl | exact Hu].
Defined.

(** C3, as stated, fails: in the 3-ary search of 19 in the first test
    array the window {0, 13} has fragment length 4, the probe at 4
    passes and the probe at 8 fails (k = 2); the step leaves the window
    {4, 4}, not {0, 8}. *)
Lemma C3_second_probe_counterexample :
  let m := array_machine test_ordinary in
  let w := mk_window 0 13 in
  let fragment_length := w_length w / 3 in
  Z.ltb (heap m (w_begin w + 1 * fragment_length)) 19 = true /\
  Z.ltb (heap m (w_begin w + 2 * fragment_length)) 19 = false /\
  fst (_3_ary_body Z.ltb 19 w m) = mk_window 4 4 /\
  fst (_3_ary_body Z.ltb 19 w m) <> mk_window (w_begin w) (2 * fragment_length).
Proof.
  cbv zeta. repeat split; try (vm_compute; reflexivity).
  vm_compute. discriminate.
Qed.

(** C3, amended: in a narrowing step of the Q-ary search, when the
    probes at start + fragment_length, ..., start + (Q-1) *
    fragment_length are tested from left to right and the k-th probe is
    the first whose test is false, the window becomes the k-th fragment:
    start moves to start + (k-1) * fragment_length (the last probe that
    passed, or the old start when k = 1) and length becomes
    fragment_length. *)
Theorem C3_first_failing_probe {T V} (a : arity) (pred : T -> V -> bool)
    (q : V) (w : window) (m : machine T) (k : Z) :
  0 <= w_length w < length_t_modulus ->
  1 <= k <= arity_value a - 1 ->
  (forall j, 1 <= j < k ->
     pred (heap m (w_begin w + j * (w_length w / arity_value a))) q = true) ->
  pred (heap m (w_begin w + k * (w_length w / arity_value a))) q = false ->
  fst (Q_ary_body a pred q w m) =
  mk_window (w_begin w + (k - 1) * (w_length w / arity_value a))
            (w_length w / arity_value a).
Proof.
  intros Hlen Hk Hbefore Hat.
  rewrite Q_ary_body_eq by exact Hlen. cbn [fst].
  pose proof (passing_first_failure pred q (heap m)
                (Z.to_nat (arity_value a - 1)) (w_begin w)
                (w_length w / arity_value a) k) as Hp.
  rewrite Z2Nat.id in Hp by lia. specialize (Hp Hk Hbefore Hat).
  unfold narrowed.
  destruct (Nat.ltb_spec
              (passing pred q (heap m) (Z.to_nat (arity_value a - 1))
                 (w_begin w) (w_length w / arity_value a))
              (Z.to_nat (arity_value a - 1))) as [Hlt|Hge]; [|lia].
  rewrite Hp. reflexivity.
Qed.

Lemma C3_first_failing_probe_witness :
  fst (Q_ary_body Q3 Z.ltb 19 (mk_window 0 13) (array_machine test_ordinary))
  = mk_window (0 + (2 - 1) * (13 / 3)) (13 / 3).
Proof.
  apply (C3_first_failing_probe Q3 Z.ltb 19 (mk_window 0 13)
           (array_machine test_ordinary) 2).
  - vm_compute. split; [discriminate | reflexivity].
  - simpl. lia.
  - intros j Hj. assert (j = 1) as -> by lia. reflexivity.
  - reflexivity.
Defined.

(** C4: in a narrowing step fragment_length is floor(length / Q); when
    all Q-1 probes satisfy the predicate the window becomes the last
    fragment, start + (Q-1) * fragment_length with length - (Q-1) *
    fragment_length elements, which is fragment_length plus the
    remainder length mod Q; when some probe fails the window that is
    left has exactly fragment_length elements, so the remainder never
    goes to an earlier fragment. *)
Theorem C4_remainder_in_last_fragment {T V} (a : arity)
    (pred : T -> V -> bool) (q : V) (w : window) (m : machine T) :
  0 <= w_length w < length_t_modulus ->
  let fragment_length := w_length w / arity_value a in
  ((forall j, 1 <= j <= arity_value a - 1 ->
      pred (heap m (w_begin w + j * fragment_length)) q = true) ->
   fst (Q_ary_body a pred q w m) =
   mk_window (w_begin w + (arity_value a - 1) * fragment_length)
             (w_length w - (arity_value a - 1) * fragment_length) /\
   w_length w - (arity_value a - 1) * fragment_length =
   fragment_length + w_length w mod arity_value a) /\
  (forall k, 1 <= k <= arity_value a - 1 ->
     pred (heap m (w_begin w + k * fragment_length)) q = false ->
     w_length (fst (Q_ary_body a pred q w m)) = fragment_length).
Proof.
  intros Hlen fl. pose proof (arity_value_range a) as HQ.
  rewrite Q_ary_body_eq by exact Hlen. cbn [fst]. fold fl. split.
  - intros Hall. split.
    + rewrite passing_all.
      * unfold narrowed. rewrite Nat.ltb_irrefl.
        rewrite Z2Nat.id by lia. reflexivity.
      * intros j Hj. apply Hall. lia.
    + pose proof (Z.div_mod (w_length w) (arity_value a)) as Hdm.
      fold fl in Hdm. lia.
  - intros k Hk Hfail. unfold narrowed.
    pose proof (passing_true pred q (heap m) (Z.to_nat (arity_value a - 1))
                  (w_begin w) fl k) as Htrue.
    destruct (Nat.ltb_spec
                (passing pred q (heap m) (Z.to_nat (arity_value a - 1))
                   (w_begin w) fl)
                (Z.to_nat (arity_value a - 1))) as [Hlt|Hge];
      [reflexivity|].
    rewrite Htrue in Hfail by lia. discriminate Hfail.
Qed.

Lemma C4_remainder_in_last_fragment_witness :
  (fst (Q_ary_body Q3 Z.ltb 42 (mk_window 0 13)
          (array_machine test_ordinary))
   = mk_window (0 + (3 - 1) * (13 / 3)) (13 - (3 - 1) * (13 / 3)) /\
   13 - (3 - 1) * (13 / 3) = 13 / 3 + 13 mod 3) /\
  w_length (fst (Q_ary_body Q3 Z.ltb 19 (mk_window 0 13)
                   (array_machine test_ordinary))) = 13 / 3.
Proof.
  split.
  - apply (C4_remainder_in_last_fragment Q3 Z.ltb 42 (mk_window 0 13)
             (array_machine test_ordinary)).
    + vm_compute. split; [discriminate | reflexivity].
    + intros j Hj. simpl in Hj.
      assert (j = 1 \/ j = 2) as [-> | ->] by lia; reflexivity.
  - apply (C4_remainder_in_last_fragment Q3 Z.ltb 19 (mk_window 0 13)
             (array_machine test_ordinary)) with (k := 2).
    + vm_compute. split; [discriminate | reflexivity].
    + simpl. lia.
    + reflexivity.
Defined.

(** C5: the threshold of arity Q defaults to 2 * Q, that is 4, 6, 8, 10
    and 12; whatever the threshold is set to, a window below it is not
    fragmented, the search is then the linear scan of the window, and a
    window at or above it is fragmented by one step before the loop
    tests the new window. *)
Theorem C5_threshold_policy :
  (forall a,
     _to_linear_threshold (Q_ary_search_parameters a) = 2 * arity_value a) /\
  map (fun a => _to_linear_threshold (Q_ary_search_parameters a))
    [Q2; Q3; Q4; Q5; Q6] = [4; 6; 8; 10; 12] /\
  (forall (T V : Type) (a : arity) (pred : T -> V -> bool) (q : V)
          (P : search_parameters_t) (fuel : nat) (begin end_ : Z)
          (m : machine T),
     let length := to_length_t (end_ - begin) in
     let cond := fun w => _to_linear_threshold P <=? w_length w in
     (length < _to_linear_threshold P ->
      Q_ary_search a pred q P (S fuel) begin end_ m =
      linear_search pred q (S fuel) begin (begin + length) m) /\
     (_to_linear_threshold P <= length ->
      Q_ary_search a pred q P (S fuel) begin end_ m =
      (w' <- Q_ary_body a pred q (mk_window begin length) ;;
       ow <- while_ fuel cond (Q_ary_body a pred q) w' ;;
       finish pred q (S fuel) ow) m)).
Proof.
  split; [exact default_threshold|]. split; [reflexivity|].
  intros T V a pred q P fuel begin end_ m length cond.
  rewrite Q_ary_search_unfold. fold length. split; intros Hthr.
  - unfold bind. cbn [while_ w_length].
    destruct (Z.leb_spec (_to_linear_threshold P) length); [lia|].
    reflexivity.
  - unfold bind. cbn [while_ w_length].
    destruct (Z.leb_spec (_to_linear_threshold P) length); [|lia].
    unfold bind. fold cond.
    destruct (Q_ary_body a pred q (mk_window begin length) m) as [w1 m1].
    reflexivity.
Qed.

Lemma C5_threshold_policy_witness :
  Q_ary_search Q3 Z.ltb 4 _3_ary_search_parameters 8 0 5
    (array_machine [1; 2; 3; 4; 5]) =
  linear_search Z.ltb 4 8 0 (0 + to_length_t (5 - 0))
    (array_machine [1; 2; 3; 4; 5]) /\
  Q_ary_search Q3 Z.ltb 19 _3_ary_search_parameters 8 0 13
    (array_machine test_ordinary) =
  (w' <- Q_ary_body Q3 Z.ltb 19 (mk_window 0 (to_length_t (13 - 0))) ;;
   ow <- while_ 7 (fun w => _to_linear_threshold _3_ary_search_parameters
                            <=? w_length w)
           (Q_ary_body Q3 Z.ltb 19) w' ;;
   finish Z.ltb 19 8 ow) (array_machine test_ordinary).
Proof.
  split.
  - apply (proj2 (proj2 C5_threshold_policy) Z Z Q3 Z.ltb 4
             _3_ary_search_parameters 7%nat 0 5
             (array_machine [1; 2; 3; 4; 5])).
    vm_compute. reflexivity.
  - apply (proj2 (proj2 C5_threshold_policy) Z Z Q3 Z.ltb 19
             _3_ary_search_parameters 7%nat 0 13
             (array_machine test_ordinary)).
    vm_compute. discriminate.
Defined.

(** The membership test after its lower bound, on any range: the
    answer in terms of the position the lower bound returned, and the
    reads. *)
Lemma membership_after_lower_bound {T} `{Ordered T} (a : arity)
    (P : search_parameters_t) (begin end_ : Z) (q : T) (m : machine T)
    (fuel : nat) :
  arity_value a <= _to_linear_threshold P ->
  (Z.to_nat (to_length_t (end_ - begin)) < fuel)%nat ->
  exists r log,
    Q_ary_search a less q P fuel begin end_ m =
    (Some r, mk_machine (heap m) (log ++ reads m)) /\
    Q_ary_contains a P fuel begin end_ q m =
    (Some (negb (r =? end_) && negb (less q (heap m r))),
     mk_machine (heap m) ((if r =? end_ then [] else [r]) ++ log ++ reads m))
    /\
    (partitioned less q (heap m) begin
       (begin + to_length_t (end_ - begin)) ->
     partition_point less q (heap m) begin
       (begin + to_length_t (end_ - begin)) r).
Proof.
  intros Hthr Hfuel.
  destruct (Q_ary_search_spec less q a P begin end_ m Hthr)
    as (r & log & Hrun & _ & _ & Hpp).
  specialize (Hrun fuel Hfuel). exists r, log.
  split; [exact Hrun|]. split; [|exact Hpp].
  rewrite Q_ary_contains_unfold, Q_ary_lower_bound_unfold.
  unfold bind. rewrite Hrun. rewrite found_eq. reflexivity.
Qed.

(** C6, as stated, fails on the sorted range of 2^32 elements: the
    length cast leaves 0, the lower bound of the query 2^32 + 5 is
    [begin], which is not the end position, and the element there, 0,
    is not greater than the query, so the membership test answers true
    at every arity; yet that element does not equal the query, and no
    element of the range does. *)
Lemma C6_long_range_counterexample :
  sorted_range less (heap long_range) 0 (2 ^ 32) /\
  (forall a,
     fst (Q_ary_lower_bound a (Q_ary_search_parameters a) 8 0 (2 ^ 32)
            (2 ^ 32 + 5) long_range) = Some 0) /\
  (forall a,
     fst (Q_ary_contains a (Q_ary_search_parameters a) 8 0 (2 ^ 32)
            (2 ^ 32 + 5) long_range) = Some true) /\
  less (2 ^ 32 + 5) (heap long_range 0) = false /\
  ~ equivalent (heap long_range 0) (2 ^ 32 + 5) /\
  (forall i, 0 <= i < 2 ^ 32 ->
     ~ equivalent (heap long_range i) (2 ^ 32 + 5)).
Proof.
  split; [exact long_range_sorted|].
  split; [intros a; destruct a; vm_compute; reflexivity|].
  split; [intros a; destruct a; vm_compute; reflexivity|].
  split; [vm_compute; reflexivity|].
  split.
  - intros [Hlt _]. vm_compute in Hlt. discriminate Hlt.
  - intros i Hi [Hlt _]. cbn [heap long_range less Ordered_Z] in Hlt.
    apply Z.ltb_ge in Hlt. lia.
Qed.

(** C6, amended: for every arity Q in 2..6, every sorted range of fewer
    than 2^32 elements and every query q, the membership test returns
    true exactly when the lower bound is not the end position and the
    element at that position is not greater than the query, that is,
    when that element is equivalent to the query (neither is less than
    the other); it runs the lower bound once and then reads at most
    that one element. *)
Theorem C6_membership {T} `{OrderedLaws T} (a : arity) (begin end_ : Z)
    (q : T) (m : machine T) (fuel : nat) :
  sorted_range less (heap m) begin end_ ->
  begin <= end_ ->
  end_ - begin < length_t_modulus ->
  (Z.to_nat (end_ - begin) < fuel)%nat ->
  let P := Q_ary_search_parameters a in
  exists r log,
    Q_ary_lower_bound a P fuel begin end_ q m =
    (Some r, mk_machine (heap m) (log ++ reads m)) /\
    Q_ary_contains a P fuel begin end_ q m =
    (Some (negb (r =? end_) && negb (less q (heap m r))),
     mk_machine (heap m) ((if r =? end_ then [] else [r]) ++ log ++ reads m))
    /\
    (fst (Q_ary_contains a P fuel begin end_ q m) = Some true <->
     r <> end_ /\ less q (heap m r) = false) /\
    (fst (Q_ary_contains a P fuel begin end_ q m) = Some true <->
     r <> end_ /\ equivalent (heap m r) q).
Proof.
  intros Hsorted Hbe Hsmall Hfuel P.
  assert (Hlen : to_length_t (end_ - begin) = end_ - begin)
    by (apply to_length_t_small; lia).
  destruct (membership_after_lower_bound a P begin end_ q m fuel
              (default_threshold_ok a)) as (r & log & Hrun & Hc & Hpp).
  { rewrite Hlen. exact Hfuel. }
  rewrite Hlen in Hpp.
  replace (begin + (end_ - begin)) with end_ in Hpp by lia.
  destruct (Hpp (sorted_partitioned_less _ _ _ _ Hsorted))
    as (Hrr & _ & Hpost).
  assert (Hiff : fst (Q_ary_contains a P fuel begin end_ q m) = Some true <->
                 r <> end_ /\ less q (heap m r) = false).
  { rewrite Hc. cbn [fst]. destruct (Z.eqb_spec r end_) as [Heq|Hne];
      cbn [negb andb].
    - split; [discriminate | intros [Hne _]; contradiction].
    - destruct (less q (heap m r)); cbn [negb]; split.
      + discriminate.
      + intros [_ Hf]. discriminate Hf.
      + intros _. split; [exact Hne | reflexivity].
      + reflexivity. }
  exists r, log. rewrite Q_ary_lower_bound_unfold.
  split; [exact Hrun|]. split; [exact Hc|]. split; [exact Hiff|].
  rewrite Hiff. unfold equivalent. split.
  - intros [Hne Hf]. split; [exact Hne|].
    split; [apply Hpost; lia | exact Hf].
  - intros (Hne & _ & Hf). split; assumption.
Qed.

Lemma C6_membership_witness :
  exists r log,
    Q_ary_lower_bound Q2 (Q_ary_search_parameters Q2) 14 0 13 16
      (array_machine test_fragmented) =
    (Some r, mk_machine (array_heap test_fragmented) (log ++ [])) /\
    Q_ary_contains Q2 (Q_ary_search_parameters Q2) 14 0 13 16
      (array_machine test_fragmented) =
    (Some (negb (r =? 13) && negb (16 <? array_heap test_fragmented r)),
     mk_machine (array_heap test_fragmented)
       ((if r =? 13 then [] else [r]) ++ log ++ [])) /\
    (fst (Q_ary_contains Q2 (Q_ary_search_parameters Q2) 14 0 13 16
            (array_machine test_fragmented)) = Some true <->
     r <> 13 /\ (16 <? array_heap test_fragmented r) = false) /\
    (fst (Q_ary_contains Q2 (Q_ary_search_parameters Q2) 14 0 13 16
            (array_machine test_fragmented)) = Some true <->
     r <> 13 /\ equivalent (array_heap test_fragmented r) 16).
Proof.
  assert (Hsmall : 13 - 0 < length_t_modulus) by (vm_compute; reflexivity).
  assert (Hfuel : (Z.to_nat (13 - 0) < 14)%nat) by (vm_compute; apply le_n).
  assert (Hbe : 0 <= 13) by lia.
  exact (C6_membership Q2 0 13 16 (array_machine test_fragmented) 14
           test_fragmented_sorted Hbe Hsmall Hfuel).
Defined.

(** C7: a call is a function of the contents of the range, the query,
    the predicate and the parameters: on two stores that hold the same
    elements in [begin, end), whatever they hold elsewhere and whatever
    was read before, the general search, the lower bound, the upper
    bound and the membership test return the same result; and a call
    leaves every element of the store as it was. *)
Theorem C7_same_inputs_same_result {T} `{Ordered T} (a : arity)
    (pred : T -> T -> bool) (q : T) (fuel : nat) (begin end_ : Z)
    (m1 m2 : machine T) :
  begin <= end_ ->
  agree (heap m1) (heap m2) begin end_ ->
  let P := Q_ary_search_parameters a in
  (fst (Q_ary_search a pred q P fuel begin end_ m1) =
   fst (Q_ary_search a pred q P fuel begin end_ m2) /\
   heap (snd (Q_ary_search a pred q P fuel begin end_ m1)) = heap m1) /\
  (fst (Q_ary_lower_bound a P fuel begin end_ q m1) =
   fst (Q_ary_lower_bound a P fuel begin end_ q m2) /\
   heap (snd (Q_ary_lower_bound a P fuel begin end_ q m1)) = heap m1) /\
  (fst (Q_ary_upper_bound a P fuel begin end_ q m1) =
   fst (Q_ary_upper_bound a P fuel begin end_ q m2) /\
   heap (snd (Q_ary_upper_bound a P fuel begin end_ q m1)) = heap m1) /\
  (fst (Q_ary_contains a P fuel begin end_ q m1) =
   fst (Q_ary_contains a P fuel begin end_ q m2) /\
   heap (snd (Q_ary_contains a P fuel begin end_ q m1)) = heap m1).
Proof.
  intros Hbe Hag P.
  pose proof (to_length_t_le (end_ - begin)) as Hle.
  assert (Hag' : agree (heap m1) (heap m2) begin
                   (begin + to_length_t (end_ - begin))).
  { intros i Hi. apply Hag. lia. }
  assert (Hsearch : forall p : T -> T -> bool,
            fst (Q_ary_search a p q P fuel begin end_ m1) =
            fst (Q_ary_search a p q P fuel begin end_ m2) /\
            heap (snd (Q_ary_search a p q P fuel begin end_ m1)) = heap m1).
  { intros p.
    destruct (Q_ary_search_ext p q a P fuel begin end_ m1 m2
                (default_threshold_ok a) Hag')
      as (r & log & Hr1 & Hr2 & _).
    rewrite Hr1, Hr2. split; reflexivity. }
  split; [apply Hsearch|].
  rewrite !Q_ary_contains_unfold, !Q_ary_lower_bound_unfold,
    !Q_ary_upper_bound_unfold.
  split; [apply Hsearch|]. split; [apply Hsearch|].
  destruct (Q_ary_search_ext less q a P fuel begin end_ m1 m2
              (default_threshold_ok a) Hag')
    as (r & log & Hr1 & Hr2 & _ & Hres).
  unfold bind. rewrite Hr1, Hr2. destruct r as [r|].
  - rewrite !found_eq. cbn [fst snd heap]. split; [|reflexivity].
    destruct (Z.eqb_spec r end_) as [Heq|Hne]; [reflexivity|].
    rewrite (Hag r); [reflexivity|].
    specialize (Hres r eq_refl). lia.
  - split; reflexivity.
Qed.

Lemma C7_same_inputs_same_result_witness :
  fst (Q_ary_contains Q5 (Q_ary_search_parameters Q5) 14 0 13 23
         (array_machine test_ordinary)) =
  fst (Q_ary_contains Q5 (Q_ary_search_parameters Q5) 14 0 13 23
         test_ordinary_elsewhere).
Proof.
  apply (C7_same_inputs_same_result Q5 Z.ltb 23 14 0 13
           (array_machine test_ordinary) test_ordinary_elsewhere).
  - lia.
  - intros i Hi. unfold test_ordinary_elsewhere. cbn [heap array_machine].
    destruct (Z.leb_spec 0 i); [|lia]. destruct (Z.ltb_spec i 13); [|lia].
    reflexivity.
Defined.

(** C8: with the default threshold 2 * Q every call returns: with fuel
    above the length the search yields a position, the same for every
    such fuel; each iteration of the narrowing loop leaves a window at
    least one element shorter; the linear scan returns after advancing
    at most the length of its window. *)
Theorem C8_search_terminates {T V} (a : arity) (pred : T -> V -> bool)
    (q : V) (begin end_ : Z) (m : machine T) :
  (exists r,
     forall fuel, (Z.to_nat (to_length_t (end_ - begin)) < fuel)%nat ->
       fst (Q_ary_search a pred q (Q_ary_search_parameters a) fuel
              begin end_ m) = Some r) /\
  (forall w (m' : machine T),
     0 <= w_length w < length_t_modulus ->
     _to_linear_threshold (Q_ary_search_parameters a) <= w_length w ->
     0 <= w_length (fst (Q_ary_body a pred q w m')) <= w_length w - 1) /\
  (forall fuel b e (m' : machine T),
     b <= e -> (Z.to_nat (e - b) < fuel)%nat ->
     exists r, fst (linear_search pred q fuel b e m') = Some r /\
               0 <= r - b <= e - b).
Proof.
  split; [|split].
  - destruct (Q_ary_search_spec pred q a (Q_ary_search_parameters a)
                begin end_ m (default_threshold_ok a))
      as (r & log & Hrun & _).
    exists r. intros fuel Hfuel. rewrite (Hrun fuel Hfuel). reflexivity.
  - intros w m' Hlen Hthr. rewrite default_threshold in Hthr.
    pose proof (arity_value_range a) as HQ.
    rewrite Q_ary_body_eq by exact Hlen. cbn [fst].
    destruct (narrowed_inside (arity_value a)
                (passing pred q (heap m') (Z.to_nat (arity_value a - 1))
                   (w_begin w) (w_length w / arity_value a))
                (w_begin w) (w_length w))
      as (_ & _ & Hpos & Hdec); try lia.
    apply passing_le.
  - intros fuel b e m' Hbe Hfuel. rewrite linear_search_eq by lia.
    cbn [fst]. eexists. split; [reflexivity|].
    destruct (first_failing_point pred q (heap m') (Z.to_nat (e - b)) b)
      as (Hr & _). lia.
Qed.

Lemma C8_search_terminates_witness :
  (exists r,
     fst (Q_ary_search Q6 Z.ltb 20 (Q_ary_search_parameters Q6) 14
            0 13 (array_machine test_ordinary)) = Some r) /\
  0 <= w_length (fst (Q_ary_body Q6 Z.ltb 20 (mk_window 0 13)
                        (array_machine test_ordinary))) <= 13 - 1 /\
  (exists r,
     fst (linear_search Z.ltb 20 4 6 9 (array_machine test_ordinary))
     = Some r /\ 0 <= r - 6 <= 9 - 6).
Proof.
  destruct (C8_search_terminates Q6 Z.ltb 20 0 13
              (array_machine test_ordinary)) as ([r Hr] & Hstep & Hscan).
  split; [|split].
  - exists r. apply Hr. vm_compute. apply le_n.
  - apply Hstep.
    + vm_compute. split; [discriminate | reflexivity].
    + vm_compute. discriminate.
  - apply Hscan.
    + lia.
    + vm_compute. apply le_n.
Defined.

(** C9: with the default threshold 2 * Q every element the search reads
    lies inside the range [begin, end): the offsets k * floor(length /
    Q), k = 1..Q-1, of the probes are positive and strictly below
    length, so every probe of a step falls inside the current window,
    and the linear scan reads inside its window only. *)
Theorem C9_reads_inside_range {T V} (a : arity) (pred : T -> V -> bool)
    (q : V) :
  (forall fuel begin end_ (m : machine T),
     begin <= end_ ->
     exists log,
       reads (snd (Q_ary_search a pred q (Q_ary_search_parameters a) fuel
                     begin end_ m)) = log ++ reads m /\
       all_within begin end_ log) /\
  (forall length k,
     _to_linear_threshold (Q_ary_search_parameters a) <= length ->
     1 <= k <= arity_value a - 1 ->
     0 < k * (length / arity_value a) < length) /\
  (forall w (m : machine T),
     0 <= w_length w < length_t_modulus ->
     _to_linear_threshold (Q_ary_search_parameters a) <= w_length w ->
     exists log,
       reads (snd (Q_ary_body a pred q w m)) = log ++ reads m /\
       all_within (w_begin w) (w_begin w + w_length w) log) /\
  (forall fuel b e (m : machine T),
     b <= e ->
     exists log,
       reads (snd (linear_search pred q fuel b e m)) = log ++ reads m /\
       all_within b e log).
Proof.
  pose proof (arity_value_range a) as HQ.
  split; [|split; [|split]].
  - intros fuel begin end_ m Hbe.
    destruct (Q_ary_search_ext pred q a (Q_ary_search_parameters a) fuel
                begin end_ m m (default_threshold_ok a))
      as (r & log & Hrun & _ & Hin & _).
    { intros i _. reflexivity. }
    exists log. rewrite Hrun. split; [reflexivity|].
    eapply all_within_sub; [exact Hin | lia |].
    pose proof (to_length_t_le (end_ - begin)). lia.
  - intros length k Hthr Hk. rewrite default_threshold in Hthr.
    destruct (fragment_bounds (arity_value a) length) as [H1 H2]; try lia.
    nia.
  - intros w m Hlen Hthr. rewrite default_threshold in Hthr.
    rewrite Q_ary_body_eq by exact Hlen. cbn [snd reads].
    eexists. split; [reflexivity|].
    apply probes_inside; try lia.
  - intros fuel b e m Hbe.
    destruct (linear_search_ext pred q fuel b e m m Hbe)
      as (r & log & Hrun & _ & Hin & _).
    { intros i _. reflexivity. }
    exists log. rewrite Hrun. split; [reflexivity | exact Hin].
Qed.

Lemma C9_reads_inside_range_witness :
  (exists log,
     reads (snd (Q_ary_search Q4 Z.ltb 20 (Q_ary_search_parameters Q4) 14
                   0 13 (array_machine test_ordinary)))
     = log ++ reads (array_machine test_ordinary) /\
     all_within 0 13 log) /\
  0 < 3 * (13 / arity_value Q4) < 13.
Proof.
  destruct (C9_reads_inside_range Q4 Z.ltb 20) as (Hsearch & Hoff & _).
  split.
  - apply Hsearch. lia.
  - apply Hoff.
    + vm_compute. discriminate.
    + simpl. lia.
Defined.

(** C10: on a sorted range [begin, end) the lower and the upper bound
    of a query are ordered within the range:
    begin <= lower bound <= upper bound <= end. *)
Theorem C10_bounds_ordered {T} `{OrderedLaws T} (a : arity)
    (begin end_ : Z) (q : T) (m : machine T) (fuel : nat) :
  sorted_range less (heap m) begin end_ ->
  begin <= end_ ->
  (Z.to_nat (to_length_t (end_ - begin)) < fuel)%nat ->
  exists lb ub,
    fst (Q_ary_lower_bound a (Q_ary_search_parameters a) fuel begin end_ q m)
    = Some lb /\
    fst (Q_ary_upper_bound a (Q_ary_search_parameters a) fuel begin end_ q m)
    = Some ub /\
    begin <= lb /\ lb <= ub /\ ub <= end_.
Proof.
  intros Hsorted Hbe Hfuel.
  destruct (bounds_spec a begin end_ q m Hsorted Hbe)
    as (lb & llog & ub & ulog & Hrun & Hlp & Hup & He).
  destruct (Hrun fuel Hfuel) as [Hl Hu].
  exists lb, ub. rewrite Hl, Hu.
  split; [reflexivity|]. split; [reflexivity|].
  pose proof (lower_le_upper _ _ _ _ _ _ Hlp Hup) as Hlu.
  destruct Hlp as (Hlr & _). destruct Hup as (Hur & _). lia.
Qed.

Lemma C10_bounds_ordered_witness :
  exists lb ub,
    fst (Q_ary_lower_bound Q4 (Q_ary_search_parameters Q4) 14 0 13 7
           (array_machine test_fragmented)) = Some lb /\
    fst (Q_ary_upper_bound Q4 (Q_ary_search_parameters Q4) 14 0 13 7
           (array_machine test_fragmented)) = Some ub /\
    0 <= lb /\ lb <= ub /\ ub <= 13.
Proof.
  apply (C10_bounds_ordered Q4 0 13 7 (array_machine test_fragmented) 14).
  - exact test_fragmented_sorted.
  - lia.
  - vm_compute. apply le_n.
Defined.

(** * Further properties of the searches *)

(** ** Loop rules *)

Section LoopRules.

Context {T : Type}.
Variable cond : window -> bool.
Variable body : window -> M T window.

(** An invariant of the body holds when the loop ends, and the
    condition is then false. *)
Lemma while_invariant (I : window -> machine T -> Prop) :
  (forall w m, I w m -> cond w = true ->
     I (fst (body w m)) (snd (body w m))) ->
  forall fuel w m w' m',
    I w m -> while_ fuel cond body w m = (Some w', m') ->
    I w' m' /\ cond w' = false.
Proof.
  intros Hstep. induction fuel as [|fuel IH]; intros w m w' m' Hi Hrun.
  - discriminate Hrun.
  - cbn [while_] in Hrun. destruct (cond w) eqn:Hc.
    + unfold bind in Hrun. specialize (Hstep w m Hi Hc).
      destruct (body w m) as [w1 m1]. cbn [fst snd] in Hstep.
      apply (IH _ _ _ _ Hstep Hrun).
    + unfold ret in Hrun. injection Hrun as <- <-. split; assumption.
Qed.

(** Two bodies that agree on the windows of an invariant give the same
    loop. *)
Lemma while_body_ext (body' : window -> M T window) (I : window -> Prop) :
  (forall w m, I w -> body w m = body' w m /\ I (fst (body w m))) ->
  forall fuel w m, I w ->
    while_ fuel cond body w m = while_ fuel cond body' w m.
Proof.
  intros Hstep. induction fuel as [|fuel IH]; intros w m Hi.
  - reflexivity.
  - cbn [while_]. destruct (cond w); [|reflexivity].
    unfold bind. destruct (Hstep w m Hi) as [Heq Hi'].
    rewrite <- Heq. destruct (body w m) as [w1 m1].
    cbn [fst] in Hi'. apply IH. exact Hi'.
Qed.

End LoopRules.

(** The window a step leaves never has more elements than it had, for
    any window length. *)
Lemma narrowed_length_range Q k b len :
  2 <= Q -> 0 <= len -> (k <= Z.to_nat (Q - 1))%nat ->
  0 <= w_length (narrowed (Z.to_nat (Q - 1)) k b (len / Q) len) <= len.
Proof.
  intros HQ Hlen Hk.
  assert (Hfl : 0 <= len / Q) by (apply Z.div_pos; lia).
  assert (Hm : Q * (len / Q) <= len) by (apply Z.mul_div_le; lia).
  unfold narrowed. destruct (Nat.ltb_spec k (Z.to_nat (Q - 1)));
    cbn [w_length]; nia.
Qed.

Lemma Q_ary_body_length_range {T V} (a : arity) (pred : T -> V -> bool)
    (q : V) (w : window) (m : machine T) :
  0 <= w_length w < length_t_modulus ->
  0 <= w_length (fst (Q_ary_body a pred q w m)) <= w_length w.
Proof.
  intros Hlen. pose proof (arity_value_range a) as HQ.
  rewrite Q_ary_body_eq by exact Hlen. cbn [fst].
  apply narrowed_length_range; try lia. apply passing_le.
Qed.

Lemma probe_log_length c : forall b fl log,
  List.length (probe_log c b fl log) = (c + List.length log)%nat.
Proof.
  induction c as [|c IH]; intros b fl log; cbn [probe_log];
    [reflexivity|].
  rewrite IH. cbn [List.length]. lia.
Qed.

Lemma scan_log_length c : forall b log,
  List.length (scan_log c b log) = (c + List.length log)%nat.
Proof.
  induction c as [|c IH]; intros b log; cbn [scan_log]; [reflexivity|].
  rewrite IH. cbn [List.length]. lia.
Qed.

(** ** X1: any predicate that partitions the range *)

(** X1: for every arity, every threshold of at least Q and every
    predicate, also one that is no ordering and one that compares
    elements with a query of another type: when the part of the range
    that the 32-bit length covers is partitioned by [pred( _, q )], the
    search returns its partition point, the position a linear scan for
    the first failing element returns, and no element from there on
    satisfies the predicate. *)
Theorem X1_partition_point_any_predicate {T V} (a : arity)
    (pred : T -> V -> bool) (q : V) (P : search_parameters_t)
    (begin end_ : Z) (m : machine T) :
  arity_value a <= _to_linear_threshold P ->
  let len := to_length_t (end_ - begin) in
  partitioned pred q (heap m) begin (begin + len) ->
  exists r,
    (forall fuel, (Z.to_nat len < fuel)%nat ->
       fst (Q_ary_search a pred q P fuel begin end_ m) = Some r) /\
    partition_point pred q (heap m) begin (begin + len) r /\
    r = first_failing pred q (heap m) (Z.to_nat len) begin /\
    (forall i, r <= i < begin + len -> pred (heap m i) q = false).
Proof.
  intros Hthr len Hpart.
  pose proof (to_length_t_range (end_ - begin)) as Hlen. fold len in Hlen.
  destruct (Q_ary_search_spec pred q a P begin end_ m Hthr)
    as (r & log & Hrun & _ & _ & Hpp).
  fold len in Hrun, Hpp. specialize (Hpp Hpart).
  exists r. split; [|split; [|split]].
  - intros fuel Hfuel. rewrite (Hrun fuel Hfuel). reflexivity.
  - exact Hpp.
  - apply (partition_point_unique pred q (heap m) begin (begin + len));
      [exact Hpp|].
    pose proof (first_failing_point pred q (heap m) (Z.to_nat len) begin)
      as Hff.
    rewrite Z2Nat.id in Hff by lia. exact Hff.
  - apply (partition_point_after pred q (heap m) begin (begin + len) r
             Hpart Hpp).
Qed.

Lemma keyed_heap_partitioned k :
  partitioned key_below k keyed_heap 0 13.
Proof.
  intros i j Hi Hij Hj. unfold key_below, keyed_heap. cbn [fst].
  intros Hp. apply Z.ltb_lt in Hp. apply Z.ltb_lt.
  destruct (Z.eq_dec i j) as [->|Hne]; [exact Hp|].
  pose proof (test_fragmented_sorted i j Hi) as Hs.
  rewrite Z.ltb_ge in Hs. specialize (Hs ltac:(lia) Hj). lia.
Qed.

Lemma X1_partition_point_any_predicate_witness :
  exists r,
    (forall fuel, (Z.to_nat (to_length_t (13 - 0)) < fuel)%nat ->
       fst (Q_ary_search Q4 key_below 12 (mk_parameters 5) fuel 0 13
              (mk_machine keyed_heap [])) = Some r) /\
    partition_point key_below 12 keyed_heap 0 (0 + to_length_t (13 - 0)) r /\
    r = first_failing key_below 12 keyed_heap
          (Z.to_nat (to_length_t (13 - 0))) 0 /\
    (forall i, r <= i < 0 + to_length_t (13 - 0) ->
       key_below (keyed_heap i) 12 = false).
Proof.
  apply (X1_partition_point_any_predicate Q4 key_below 12 (mk_parameters 5)
           0 13 (mk_machine keyed_heap [])).
  - simpl. lia.
  - exact (keyed_heap_partitioned 12).
Defined.

(** ** X2: the result does not depend on the arity or the threshold *)

(** X2: on a range whose covered part is partitioned by the predicate,
    any two of the five searches, each under any threshold of at least
    its own arity, return the same position. *)
Theorem X2_same_result_any_arity_any_threshold {T V} (a1 a2 : arity)
    (pred : T -> V -> bool) (q : V) (P1 P2 : search_parameters_t)
    (begin end_ : Z) (m : machine T) (fuel1 fuel2 : nat) :
  arity_value a1 <= _to_linear_threshold P1 ->
  arity_value a2 <= _to_linear_threshold P2 ->
  partitioned pred q (heap m) begin (begin + to_length_t (end_ - begin)) ->
  (Z.to_nat (to_length_t (end_ - begin)) < fuel1)%nat ->
  (Z.to_nat (to_length_t (end_ - begin)) < fuel2)%nat ->
  fst (Q_ary_search a1 pred q P1 fuel1 begin end_ m) =
  fst (Q_ary_search a2 pred q P2 fuel2 begin end_ m) /\
  fst (Q_ary_search a1 pred q P1 fuel1 begin end_ m) <> None.
Proof.
  intros Hthr1 Hthr2 Hpart Hfuel1 Hfuel2.
  destruct (Q_ary_search_spec pred q a1 P1 begin end_ m Hthr1)
    as (r1 & log1 & Hrun1 & _ & _ & Hpp1).
  destruct (Q_ary_search_spec pred q a2 P2 begin end_ m Hthr2)
    as (r2 & log2 & Hrun2 & _ & _ & Hpp2).
  rewrite (Hrun1 fuel1 Hfuel1), (Hrun2 fuel2 Hfuel2). cbn [fst].
  rewrite (partition_point_unique _ _ _ _ _ _ _ (Hpp1 Hpart) (Hpp2 Hpart)).
  split; [reflexivity | discriminate].
Qed.

Lemma X2_same_result_any_arity_any_threshold_witness :
  fst (Q_ary_search Q2 key_below 12 (mk_parameters 2) 14 0 13
         (mk_machine keyed_heap [])) =
  fst (Q_ary_search Q6 key_below 12 (mk_parameters 100) 20 0 13
         (mk_machine keyed_heap [])) /\
  fst (Q_ary_search Q2 key_below 12 (mk_parameters 2) 14 0 13
         (mk_machine keyed_heap [])) <> None.
Proof.
  apply (X2_same_result_any_arity_any_threshold Q2 Q6 key_below 12
           (mk_parameters 2) (mk_parameters 100) 0 13
           (mk_machine keyed_heap []) 14 20).
  - simpl. lia.
  - simpl. lia.
  - exact (keyed_heap_partitioned 12).
  - vm_compute. apply le_n.
  - vm_compute. lia.
Defined.

(** ** X3: thresholds below the arity *)

(** With fragments of length 0 every probe reads the window start. *)
Lemma passing_zero_fragment {T V} (pred : T -> V -> bool) (q : V)
    (h : Z -> T) n b :
  pred (h b) q = true -> passing pred q h n b 0 = n.
Proof.
  intros Hp. apply passing_all. intros j _.
  replace (b + j * 0) with b by lia. exact Hp.
Qed.

(** The offsets of the probes of a window of any length: never past
    the window, and strictly inside it when it is not empty. *)
Lemma probe_offset_bound Q len j :
  2 <= Q -> 0 <= len -> 0 <= j <= Q - 1 ->
  0 <= j * (len / Q) <= len /\ (1 <= len -> j * (len / Q) < len).
Proof.
  intros HQ Hlen Hj.
  assert (Hfl : 0 <= len / Q) by (apply Z.div_pos; lia).
  assert (Hm : Q * (len / Q) <= len) by (apply Z.mul_div_le; lia).
  split; [nia|]. intros Hpos.
  destruct (Z.eq_dec (len / Q) 0) as [Hz|Hnz]; [rewrite Hz; lia | nia].
Qed.

(** With the threshold 0 the narrowing loop uses up any fuel; on a
    window inside a range [b0, e0) that starts before e0 all its reads
    stay inside the range. *)
Lemma narrowing_never_ends {T V} (pred : T -> V -> bool) (q : V)
    (a : arity) (b0 e0 : Z) :
  forall fuel w (m : machine T),
    0 <= w_length w < length_t_modulus ->
    b0 <= w_begin w -> w_begin w + w_length w <= e0 -> w_begin w < e0 ->
    exists log,
      while_ fuel (fun w => 0 <=? w_length w) (Q_ary_body a pred q) w m =
      (None, mk_machine (heap m) (log ++ reads m)) /\
      all_within b0 e0 log.
Proof.
  pose proof (arity_value_range a) as HQ.
  induction fuel as [|fuel IH]; intros w m Hlen Hb He Hin.
  - exists []. destruct m. split; [reflexivity | constructor].
  - cbn [while_]. destruct (Z.leb_spec 0 (w_length w)) as [_|Hneg]; [|lia].
    unfold bind. rewrite Q_ary_body_eq by exact Hlen.
    set (n := Z.to_nat (arity_value a - 1)).
    set (fl := w_length w / arity_value a).
    set (k := passing pred q (heap m) n (w_begin w) fl).
    assert (Hk : (k <= n)%nat) by apply passing_le.
    assert (Hn : Z.of_nat n = arity_value a - 1) by (unfold n; lia).
    assert (Hoff : forall j, 0 <= j <= arity_value a - 1 ->
              0 <= j * fl <= w_length w /\ w_begin w + j * fl < e0).
    { intros j Hj.
      pose proof (probe_offset_bound (arity_value a) (w_length w) j
                    ltac:(lia) ltac:(lia) Hj) as [Hr Hs].
      fold fl in Hr, Hs. split; [exact Hr|].
      destruct (Z.eq_dec (w_length w) 0) as [Hz|Hnz]; [nia | lia]. }
    pose proof (narrowed_length_range (arity_value a) k (w_begin w)
                  (w_length w) ltac:(lia) ltac:(lia) Hk) as Hrange.
    fold n fl in Hrange.
    assert (Hw1 : b0 <= w_begin (narrowed n k (w_begin w) fl (w_length w)) /\
                  w_begin (narrowed n k (w_begin w) fl (w_length w))
                  + w_length (narrowed n k (w_begin w) fl (w_length w))
                  <= e0 /\
                  w_begin (narrowed n k (w_begin w) fl (w_length w)) < e0).
    { unfold narrowed. destruct (Nat.ltb_spec k n) as [Hlt|Hge];
        cbn [w_begin w_length].
      - destruct (Hoff (Z.of_nat k)) as [H1 H2]; [lia|].
        destruct (Hoff (Z.of_nat k + 1)) as [H3 H4]; [lia|].
        repeat split; lia.
      - destruct (Hoff (Z.of_nat n)) as [H1 H2]; [lia|].
        repeat split; lia. }
    set (w1 := narrowed n k (w_begin w) fl (w_length w)) in *.
    set (plog := probe_log (Nat.min (S k) n) (w_begin w) fl []).
    destruct Hw1 as (Hb1 & He1 & Hin1).
    destruct (IH w1 (mk_machine (heap m) (plog ++ reads m)))
      as (log & Hrun & Hlog); try lia.
    cbn [heap reads] in Hrun. exists (log ++ plog).
    rewrite Hrun, app_assoc. split; [reflexivity|].
    apply Forall_app. split; [exact Hlog|].
    apply Forall_forall. intros p Hp. apply probe_log_In in Hp.
    destruct Hp as [j [Hj ->]].
    destruct (Hoff j) as [H1 H2]; lia.
Qed.

(** X3: the threshold must not be set below the arity. On a non-empty
    range, where every read of the loop below stays inside the range:
    with the threshold 0 the narrowing loop never ends, the search uses
    up any fuel; with a threshold from 1 to Q - 1, a window of at least
    threshold and fewer than Q elements whose first element satisfies
    the predicate is left as it is by the step (the fragment length is
    0), and the loop never ends either. *)
Theorem X3_threshold_below_arity {T V} (a : arity) (pred : T -> V -> bool)
    (q : V) (P : search_parameters_t) (begin end_ : Z) (m : machine T) :
  begin < end_ ->
  (_to_linear_threshold P = 0 ->
   forall fuel, exists log,
     Q_ary_search a pred q P fuel begin end_ m =
     (None, mk_machine (heap m) (log ++ reads m)) /\
     all_within begin end_ log) /\
  (1 <= _to_linear_threshold P ->
   _to_linear_threshold P <= to_length_t (end_ - begin) ->
   to_length_t (end_ - begin) < arity_value a ->
   pred (heap m begin) q = true ->
   forall fuel, exists log,
     Q_ary_search a pred q P fuel begin end_ m =
     (None, mk_machine (heap m) (log ++ reads m)) /\
     all_within begin end_ log).
Proof.
  intros Hne.
  pose proof (arity_value_range a) as HQ.
  pose proof (to_length_t_range (end_ - begin)) as Hlen.
  pose proof (to_length_t_le (end_ - begin) ltac:(lia)) as Hle.
  split.
  - intros Hzero fuel. rewrite Q_ary_search_unfold. unfold bind.
    rewrite Hzero.
    destruct (narrowing_never_ends pred q a begin end_ fuel
                (mk_window begin (to_length_t (end_ - begin))) m)
      as (log & Hrun & Hlog); cbn [w_begin w_length]; try lia.
    rewrite Hrun. exists log. split; [reflexivity | exact Hlog].
  - intros Hpos Hthr Hsmall Hp fuel. rewrite Q_ary_search_unfold.
    unfold bind.
    set (w0 := mk_window begin (to_length_t (end_ - begin))).
    assert (Hdiv : forall (m' : machine T), heap m' = heap m ->
              exists log,
                while_ fuel (fun w => _to_linear_threshold P <=? w_length w)
                  (Q_ary_body a pred q) w0 m' =
                (None, mk_machine (heap m') (log ++ reads m')) /\
                all_within begin end_ log).
    { induction fuel as [|fuel IH]; intros m' Hm'.
      - exists []. destruct m'. split; [reflexivity | constructor].
      - cbn [while_]. unfold w0 at 1. cbn [w_length].
        destruct (Z.leb_spec (_to_linear_threshold P)
                    (to_length_t (end_ - begin))) as [_|Hlt]; [|lia].
        unfold bind. rewrite Q_ary_body_eq by exact Hlen.
        change (w_begin w0) with begin.
        change (w_length w0) with (to_length_t (end_ - begin)).
        rewrite Z.div_small by lia.
        rewrite passing_zero_fragment by (rewrite Hm'; exact Hp).
        rewrite Nat.min_r by lia.
        unfold narrowed. rewrite Nat.ltb_irrefl.
        replace (mk_window
                   (begin + Z.of_nat (Z.to_nat (arity_value a - 1)) * 0)
                   (to_length_t (end_ - begin)
                    - Z.of_nat (Z.to_nat (arity_value a - 1)) * 0))
          with w0 by (unfold w0; f_equal; lia).
        set (plog := probe_log (Z.to_nat (arity_value a - 1)) begin 0 []).
        destruct (IH (mk_machine (heap m') (plog ++ reads m')) Hm')
          as (log & Hrun & Hlog).
        cbn [heap reads] in Hrun. exists (log ++ plog).
        rewrite Hrun, app_assoc. split; [reflexivity|].
        apply Forall_app. split; [exact Hlog|].
        apply Forall_forall. intros p Hin. apply probe_log_In in Hin.
        destruct Hin as [j [Hj ->]]. lia. }
    destruct (Hdiv m eq_refl) as (log & Hrun & Hlog). rewrite Hrun.
    exists log. split; [reflexivity | exact Hlog].
Qed.

Lemma X3_threshold_below_arity_witness :
  (forall fuel, exists log,
     Q_ary_search Q3 Z.ltb 20 (mk_parameters 0) fuel 0 13
       (array_machine test_ordinary) =
     (None, mk_machine (array_heap test_ordinary) (log ++ [])) /\
     all_within 0 13 log) /\
  (forall fuel, exists log,
     Q_ary_search Q3 Z.ltb 20 (mk_parameters 2) fuel 0 2
       (array_machine test_ordinary) =
     (None, mk_machine (array_heap test_ordinary) (log ++ [])) /\
     all_within 0 2 log).
Proof.
  assert (H13 : 0 < 13) by lia. assert (H2 : 0 < 2) by lia.
  destruct (X3_threshold_below_arity Q3 Z.ltb 20 (mk_parameters 0)
              0 13 (array_machine test_ordinary) H13) as [Hzero _].
  destruct (X3_threshold_below_arity Q3 Z.ltb 20 (mk_parameters 2)
              0 2 (array_machine test_ordinary) H2) as [_ Hsmall].
  split.
  - apply Hzero. reflexivity.
  - apply Hsmall.
    + simpl. lia.
    + vm_compute. discriminate.
    + vm_compute. reflexivity.
    + reflexivity.
Defined.

(** ** X4: the five functions are one algorithm *)

(** X4: each of the five unrolled searches is the search with the arity
    as a parameter, run at its arity: same result, same reads, for every
    predicate, query, threshold, fuel and range; the reductions modulo
    2^32 of the length arithmetic never change a value. *)
Theorem X4_unrolled_is_generic {T V} (a : arity) (pred : T -> V -> bool)
    (q : V) (P : search_parameters_t) (fuel : nat) (begin end_ : Z)
    (m : machine T) :
  Q_ary_search a pred q P fuel begin end_ m =
  generic_search (arity_value a) pred q P fuel begin end_ m.
Proof.
  rewrite Q_ary_search_unfold. unfold generic_search, bind.
  rewrite (while_body_ext _ (Q_ary_body a pred q)
             (generic_body pred q (arity_value a))
             (fun w => 0 <= w_length w < length_t_modulus)).
  - reflexivity.
  - intros w m' Hw. split.
    + apply Q_ary_body_generic. exact Hw.
    + pose proof (Q_ary_body_length_range a pred q w m' Hw). lia.
  - cbn [w_length]. apply to_length_t_range.
Qed.

(** ** X5: the empty range *)

(** X5: on an empty range, under any threshold of at least 1, the
    search, both bounds and the membership test read no element at all
    (the range may be the null pointer): the positions returned are
    [begin] and the membership test answers false. *)
Theorem X5_empty_range_reads_nothing {T} `{Ordered T} (a : arity)
    (pred : T -> T -> bool) (q : T) (P : search_parameters_t)
    (fuel : nat) (begin : Z) (m : machine T) :
  1 <= _to_linear_threshold P ->
  Q_ary_search a pred q P (S fuel) begin begin m = (Some begin, m) /\
  Q_ary_lower_bound a P (S fuel) begin begin q m = (Some begin, m) /\
  Q_ary_upper_bound a P (S fuel) begin begin q m = (Some begin, m) /\
  Q_ary_contains a P (S fuel) begin begin q m = (Some false, m).
Proof.
  intros Hthr.
  assert (Hsearch : forall p : T -> T -> bool,
            Q_ary_search a p q P (S fuel) begin begin m = (Some begin, m)).
  { intros p. rewrite Q_ary_search_unfold. unfold bind.
    rewrite Z.sub_diag. change (to_length_t 0) with 0.
    cbn [while_ w_length].
    destruct (Z.leb_spec (_to_linear_threshold P) 0) as [Hle|_]; [lia|].
    unfold ret. cbn [finish w_begin w_length linear_search].
    rewrite Z.add_0_r, Z.eqb_refl. reflexivity. }
  split; [apply Hsearch|].
  rewrite Q_ary_contains_unfold, Q_ary_lower_bound_unfold,
    Q_ary_upper_bound_unfold.
  split; [apply Hsearch|]. split; [apply Hsearch|].
  unfold bind. rewrite Hsearch. cbn [found]. rewrite Z.eqb_refl.
  reflexivity.
Qed.

Lemma X5_empty_range_reads_nothing_witness :
  Q_ary_contains Q6 (Q_ary_search_parameters Q6) 1 0 0 6 (array_machine [])
  = (Some false, array_machine []).
Proof.
  apply (X5_empty_range_reads_nothing Q6 Z.ltb 6 (Q_ary_search_parameters Q6)
           0 0 (array_machine [])).
  vm_compute. discriminate.
Defined.

(** ** X6: ranges that are not sorted *)

Section AnyRange.

Context {T V : Type}.
Variable pred : T -> V -> bool.
Variable q : V.
Variable h : Z -> T.
Variables b0 e0 : Z.

Lemma bracketed_step a w m :
  bracketed pred q h b0 e0 w m -> arity_value a <= w_length w ->
  bracketed pred q h b0 e0 (fst (Q_ary_body a pred q w m))
    (snd (Q_ary_body a pred q w m)).
Proof.
  intros (Hh & Hlen & Hleft & Hright) Hge.
  pose proof (arity_value_range a) as HQ.
  rewrite Q_ary_body_eq by exact Hlen. cbn [fst snd]. rewrite Hh.
  set (n := Z.to_nat (arity_value a - 1)).
  set (fl := w_length w / arity_value a).
  pose proof (passing_le pred q h n (w_begin w) fl) as Hle.
  pose proof (passing_true pred q h n (w_begin w) fl) as Htrue.
  pose proof (passing_false pred q h n (w_begin w) fl) as Hfalse.
  set (k := passing pred q h n (w_begin w) fl) in *.
  destruct (narrowed_inside (arity_value a) k (w_begin w) (w_length w))
    as (Hb & He & Hpos & Hdec); try lia.
  fold n fl in Hb, He, Hpos, Hdec.
  assert (Hn : Z.of_nat n = arity_value a - 1) by (unfold n; lia).
  split; [reflexivity|]. split; [lia|].
  revert Hb He Hpos Hdec. unfold narrowed.
  destruct (Nat.ltb_spec k n) as [Hlt|Hge']; cbn [w_begin w_length];
    intros Hb He Hpos Hdec.
  - split.
    + destruct (Nat.eq_dec k 0) as [Hk0|Hk0].
      * rewrite Hk0. cbn [Z.of_nat]. rewrite Z.mul_0_l, Z.add_0_r.
        destruct Hleft as [Hl|[Hl _]]; [left; exact Hl|].
        right. split; [exact Hl | lia].
      * right. split; [apply Htrue; lia | lia].
    + right. replace (w_begin w + Z.of_nat k * fl + fl)
        with (w_begin w + (Z.of_nat k + 1) * fl) by lia.
      apply Hfalse. exact Hlt.
  - split.
    + right. split; [apply Htrue; lia | lia].
    + replace (w_begin w + Z.of_nat n * fl + (w_length w - Z.of_nat n * fl))
        with (w_begin w + w_length w) by lia.
      exact Hright.
Qed.

End AnyRange.

(** X6: on any range, sorted or not, and under any threshold of at
    least Q, the search returns a position r of the part [begin, begin +
    length) that the 32-bit length covers, after reading inside that
    part only, and r is a boundary: r is [begin] or the element before r
    satisfies the predicate, and r is the end of the part or the
    element at r fails the predicate. *)
Theorem X6_any_range_local_boundary {T V} (a : arity)
    (pred : T -> V -> bool) (q : V) (P : search_parameters_t)
    (begin end_ : Z) (m : machine T) :
  arity_value a <= _to_linear_threshold P ->
  let len := to_length_t (end_ - begin) in
  exists r log,
    (forall fuel, (Z.to_nat len < fuel)%nat ->
       Q_ary_search a pred q P fuel begin end_ m =
       (Some r, mk_machine (heap m) (log ++ reads m))) /\
    all_within begin (begin + len) log /\
    begin <= r <= begin + len /\
    (r = begin \/ pred (heap m (r - 1)) q = true) /\
    (r = begin + len \/ pred (heap m r) q = false).
Proof.
  intros Hthr len. pose proof (arity_value_range a) as HQ.
  pose proof (to_length_t_range (end_ - begin)) as Hlen. fold len in Hlen.
  set (cond := fun w => _to_linear_threshold P <=? w_length w).
  destruct (narrowing_spec pred q a _ Hthr (S (Z.to_nat len))
              (mk_window begin len) m)
    as (w' & log & Hrun & Hb & He & Hw & Hin & _);
    cbn [w_begin w_length] in *; try lia.
  assert (Hinit : bracketed pred q (heap m) begin (begin + len)
                    (mk_window begin len) m).
  { split; [reflexivity|]. split; [exact Hlen|].
    split; left; reflexivity. }
  assert (Hstep : forall w m',
            bracketed pred q (heap m) begin (begin + len) w m' ->
            cond w = true ->
            bracketed pred q (heap m) begin (begin + len)
              (fst (Q_ary_body a pred q w m'))
              (snd (Q_ary_body a pred q w m'))).
  { intros w m' Hi Hc. apply bracketed_step; [exact Hi|].
    unfold cond in Hc. apply Z.leb_le in Hc. lia. }
  destruct (while_invariant cond (Q_ary_body a pred q) _ Hstep
              _ _ _ _ _ Hinit Hrun)
    as [(_ & _ & Hleft & Hright) _].
  set (n := Z.to_nat (w_begin w' + w_length w' - w_begin w')).
  assert (Hn : Z.of_nat n = w_length w') by (unfold n; lia).
  destruct (first_failing_point pred q (heap m) n (w_begin w'))
    as (Hr & Hpre & Hpost).
  set (r := first_failing pred q (heap m) n (w_begin w')) in *.
  rewrite Hn in Hr, Hpost.
  exists r, (scan_log (scan_reads pred q (heap m) n (w_begin w'))
               (w_begin w') [] ++ log).
  split; [|split; [|split; [|split]]].
  - intros fuel Hfuel. rewrite Q_ary_search_unfold. unfold bind.
    fold len cond. rewrite (while_fuel_mono _ _ _ _ _ _ _ Hrun) by lia.
    unfold finish. rewrite linear_search_eq by lia.
    cbn [heap reads]. fold n r. rewrite scan_log_app, app_assoc.
    reflexivity.
  - apply Forall_app. split; [|exact Hin].
    eapply all_within_sub; [apply scan_log_within | lia |].
    pose proof (scan_reads_le pred q (heap m) n (w_begin w')). lia.
  - lia.
  - destruct (Z.eq_dec r (w_begin w')) as [Heq|Hne].
    + destruct Hleft as [Hl|[Hl Hpos]]; [left; lia|].
      rewrite Heq in Hpost. rewrite Hpost in Hl by lia. discriminate Hl.
    + right. apply Hpre. lia.
  - destruct (Z.eq_dec r (w_begin w' + w_length w')) as [Heq|Hne].
    + destruct Hright as [Hr'|Hr']; [left; lia|].
      right. rewrite Heq. exact Hr'.
    + right. apply Hpost. lia.
Qed.

Lemma X6_any_range_local_boundary_witness :
  exists r log,
    (forall fuel, (Z.to_nat (to_length_t (13 - 0)) < fuel)%nat ->
       Q_ary_search Q3 Z.ltb 5 (Q_ary_search_parameters Q3) fuel 0 13
         (array_machine test_unsorted) =
       (Some r, mk_machine (array_heap test_unsorted) (log ++ []))) /\
    all_within 0 (0 + to_length_t (13 - 0)) log /\
    0 <= r <= 0 + to_length_t (13 - 0) /\
    (r = 0 \/ (array_heap test_unsorted (r - 1) <? 5) = true) /\
    (r = 0 + to_length_t (13 - 0) \/ (array_heap test_unsorted r <? 5) = false).
Proof.
  apply (X6_any_range_local_boundary Q3 Z.ltb 5 (Q_ary_search_parameters Q3)
           0 13 (array_machine test_unsorted)).
  vm_compute. discriminate.
Defined.

(** ** X7: the number of reads is logarithmic *)

Lemma log2_half p : 2 <= p -> Z.log2 (p / 2) + 1 <= Z.log2 p.
Proof.
  intros Hp.
  assert (Hh : 1 <= p / 2) by (apply Z.div_le_lower_bound; lia).
  assert (Hm : 2 * (p / 2) <= p) by (apply Z.mul_div_le; lia).
  pose proof (Z.log2_double (p / 2) ltac:(lia)) as Hd.
  pose proof (Z.log2_le_mono _ _ Hm) as Hmono. lia.
Qed.

(** At the default threshold a step at least halves the part of the
    length above 2 * (Q - 1). *)
Lemma narrowed_halves Q k b len :
  2 <= Q -> 2 * Q <= len -> (k <= Z.to_nat (Q - 1))%nat ->
  w_length (narrowed (Z.to_nat (Q - 1)) k b (len / Q) len) - 2 * (Q - 1)
  <= (len - 2 * (Q - 1)) / 2.
Proof.
  intros HQ Hlen Hk.
  assert (Hhalf : len / Q <= len / 2).
  { apply Z.div_le_compat_l; lia. }
  assert (Hdm : len = Q * (len / Q) + len mod Q) by (apply Z.div_mod; lia).
  assert (Hmod : 0 <= len mod Q < Q) by (apply Z.mod_pos_bound; lia).
  assert (Hsplit : (len - 2 * (Q - 1)) / 2 = len / 2 - (Q - 1)).
  { replace (len - 2 * (Q - 1)) with (len + (- (Q - 1)) * 2) by lia.
    rewrite Z.div_add by lia. lia. }
  rewrite Hsplit. unfold narrowed.
  destruct (Nat.ltb_spec k (Z.to_nat (Q - 1))); cbn [w_length].
  - lia.
  - rewrite Z2Nat.id by lia. nia.
Qed.

Lemma narrowing_cost {T V} (pred : T -> V -> bool) (q : V) (a : arity) :
  let Q := arity_value a in
  forall fuel w (m : machine T),
    0 <= w_length w < length_t_modulus ->
    (Z.to_nat (Z.log2 (w_length w - 2 * (Q - 1))) < fuel)%nat ->
    exists w' log,
      while_ fuel (fun w => 2 * Q <=? w_length w) (Q_ary_body a pred q) w m =
      (Some w', mk_machine (heap m) (log ++ reads m)) /\
      Z.of_nat (List.length log)
      <= (Q - 1) * Z.log2 (w_length w - 2 * (Q - 1)) /\
      0 <= w_length w' < 2 * Q.
Proof.
  intros Q. pose proof (arity_value_range a) as HQ. fold Q in HQ.
  induction fuel as [|fuel IH]; intros w m Hlen Hfuel; [lia|].
  cbn [while_]. destruct (Z.leb_spec (2 * Q) (w_length w)) as [Hge|Hlt].
  - unfold bind. rewrite Q_ary_body_eq by exact Hlen. fold Q.
    set (n := Z.to_nat (Q - 1)).
    set (fl := w_length w / Q).
    set (k := passing pred q (heap m) n (w_begin w) fl).
    assert (Hk : (k <= n)%nat) by apply passing_le.
    pose proof (narrowed_halves Q k (w_begin w) (w_length w)
                  ltac:(lia) Hge Hk) as Hhalf.
    destruct (narrowed_inside Q k (w_begin w) (w_length w))
      as (_ & _ & Hpos & Hdec); try lia.
    fold n fl in Hhalf, Hpos, Hdec.
    set (w1 := narrowed n k (w_begin w) fl (w_length w)) in *.
    set (plog := probe_log (Nat.min (S k) n) (w_begin w) fl []).
    pose proof (log2_half (w_length w - 2 * (Q - 1)) ltac:(lia)) as Hlog.
    pose proof (Z.log2_le_mono _ _ Hhalf) as Hmono.
    pose proof (Z.log2_nonneg (w_length w1 - 2 * (Q - 1))) as Hnn.
    destruct (IH w1 (mk_machine (heap m) (plog ++ reads m)))
      as (w' & log & Hrun & Hcost & Hw'); try lia.
    cbn [heap reads] in Hrun.
    exists w', (log ++ plog). rewrite Hrun, app_assoc.
    split; [reflexivity|]. split; [|exact Hw'].
    rewrite length_app, Nat2Z.inj_add. unfold plog.
    rewrite probe_log_length. cbn [List.length].
    assert (Hp : Z.of_nat (Nat.min (S k) n + 0) <= Q - 1) by lia.
    nia.
  - exists w, []. destruct m as [hp rd]. unfold ret. cbn [heap reads app].
    split; [reflexivity|]. split; [|lia].
    cbn [List.length Z.of_nat].
    pose proof (Z.log2_nonneg (w_length w - 2 * (Q - 1))). nia.
Qed.

(** X7: at the default threshold the search of a range of n elements (n
    taken modulo 2^32) returns after at most (Q - 1) * log2 n + 2 * Q - 1
    reads, one predicate test each, and fuel log2 n + 2 * Q is enough,
    on any range, sorted or not. *)
Theorem X7_logarithmic_reads {T V} (a : arity) (pred : T -> V -> bool)
    (q : V) (begin end_ : Z) (m : machine T) (fuel : nat) :
  let n := to_length_t (end_ - begin) in
  (Z.to_nat (Z.log2 n + 2 * arity_value a) <= fuel)%nat ->
  exists r log,
    Q_ary_search a pred q (Q_ary_search_parameters a) fuel begin end_ m =
    (Some r, mk_machine (heap m) (log ++ reads m)) /\
    Z.of_nat (List.length log)
    <= (arity_value a - 1) * Z.log2 n + 2 * arity_value a - 1.
Proof.
  intros n Hfuel. pose proof (arity_value_range a) as HQ.
  pose proof (to_length_t_range (end_ - begin)) as Hn. fold n in Hn.
  pose proof (Z.log2_nonneg n) as Hnn.
  pose proof (Z.log2_nonneg (n - 2 * (arity_value a - 1))) as Hnn'.
  assert (Hmono : Z.log2 (n - 2 * (arity_value a - 1)) <= Z.log2 n).
  { apply Z.log2_le_mono. lia. }
  destruct (narrowing_cost pred q a fuel (mk_window begin n) m)
    as (w' & log & Hrun & Hcost & Hw'); cbn [w_length] in *; try lia.
  rewrite Q_ary_search_unfold. unfold bind. fold n.
  rewrite default_threshold. rewrite Hrun.
  unfold finish. rewrite linear_search_eq by lia. cbn [heap reads].
  set (c := scan_reads pred q (heap m)
              (Z.to_nat (w_begin w' + w_length w' - w_begin w'))
              (w_begin w')).
  assert (Hc : (c <= Z.to_nat (w_begin w' + w_length w' - w_begin w'))%nat)
    by apply scan_reads_le.
  eexists. exists (scan_log c (w_begin w') [] ++ log).
  split.
  - rewrite scan_log_app, app_assoc. reflexivity.
  - rewrite length_app, Nat2Z.inj_add, scan_log_length.
    cbn [List.length]. nia.
Qed.

Lemma X7_logarithmic_reads_witness :
  exists r log,
    Q_ary_search Q2 Z.ltb 20 (Q_ary_search_parameters Q2) 7 0 13
      (array_machine test_ordinary) =
    (Some r, mk_machine (array_heap test_ordinary) (log ++ [])) /\
    Z.of_nat (List.length log)
    <= (arity_value Q2 - 1) * Z.log2 (to_length_t (13 - 0))
       + 2 * arity_value Q2 - 1.
Proof.
  apply (X7_logarithmic_reads Q2 Z.ltb 20 0 13
           (array_machine test_ordinary) 7).
  vm_compute. apply le_n.
Defined.

(** ** X8 to X10: the bounds and the membership test on sorted ranges *)

Section SortedRange.

Context {T : Type} `{OrderedLaws T}.

(** Both bounds under any threshold of at least Q, on the part of a
    sorted range that the 32-bit length covers. *)
Lemma bounds_spec_any_threshold a P begin end_ (q : T) (m : machine T) :
  arity_value a <= _to_linear_threshold P ->
  sorted_range less (heap m) begin end_ -> begin <= end_ ->
  let e := begin + to_length_t (end_ - begin) in
  exists lb llog ub ulog,
    (forall fuel, (Z.to_nat (to_length_t (end_ - begin)) < fuel)%nat ->
       Q_ary_lower_bound a P fuel begin end_ q m =
       (Some lb, mk_machine (heap m) (llog ++ reads m)) /\
       Q_ary_upper_bound a P fuel begin end_ q m =
       (Some ub, mk_machine (heap m) (ulog ++ reads m))) /\
    partition_point less q (heap m) begin e lb /\
    partition_point less_equal q (heap m) begin e ub /\
    partitioned less q (heap m) begin e /\
    partitioned less_equal q (heap m) begin e /\
    e <= end_.
Proof.
  intros Hthr Hsorted Hbe e.
  pose proof (to_length_t_le (end_ - begin)) as Hle.
  assert (He : e <= end_) by (unfold e; lia).
  assert (Hsorted' : sorted_range less (heap m) begin e).
  { intros i j Hi Hij Hj. apply Hsorted; lia. }
  pose proof (sorted_partitioned_less (heap m) begin e q Hsorted') as Hpl.
  pose proof (sorted_partitioned_less_equal (heap m) begin e q Hsorted')
    as Hpu.
  destruct (Q_ary_search_spec less q a P begin end_ m Hthr)
    as (lb & llog & Hl & _ & _ & Hlp).
  destruct (Q_ary_search_spec less_equal q a P begin end_ m Hthr)
    as (ub & ulog & Hu & _ & _ & Hup).
  exists lb, llog, ub, ulog.
  split; [|split; [|split; [|split; [|split]]]].
  - intros fuel Hfuel.
    rewrite Q_ary_lower_bound_unfold, Q_ary_upper_bound_unfold.
    rewrite (Hl fuel Hfuel), (Hu fuel Hfuel). split; reflexivity.
  - apply Hlp. exact Hpl.
  - apply Hup. exact Hpu.
  - exact Hpl.
  - exact Hpu.
  - exact He.
Qed.

End SortedRange.

(** X8: on a sorted range both bounds are monotone in the query: when
    q2 is not less than q1, the lower bound of q1 is not after the lower
    bound of q2, and likewise the upper bounds; for any threshold of at
    least Q and any length. *)
Theorem X8_bounds_monotone_in_query {T} `{OrderedLaws T} (a : arity)
    (P : search_parameters_t) (begin end_ : Z) (q1 q2 : T)
    (m : machine T) (fuel : nat) :
  arity_value a <= _to_linear_threshold P ->
  sorted_range less (heap m) begin end_ ->
  begin <= end_ ->
  less q2 q1 = false ->
  (Z.to_nat (to_length_t (end_ - begin)) < fuel)%nat ->
  exists l1 l2 u1 u2,
    fst (Q_ary_lower_bound a P fuel begin end_ q1 m) = Some l1 /\
    fst (Q_ary_lower_bound a P fuel begin end_ q2 m) = Some l2 /\
    fst (Q_ary_upper_bound a P fuel begin end_ q1 m) = Some u1 /\
    fst (Q_ary_upper_bound a P fuel begin end_ q2 m) = Some u2 /\
    l1 <= l2 /\ u1 <= u2.
Proof.
  intros Hthr Hsorted Hbe Hq Hfuel.
  destruct (bounds_spec_any_threshold a P begin end_ q1 m Hthr Hsorted Hbe)
    as (l1 & ? & u1 & ? & Hrun1 & Hl1 & Hu1 & _).
  destruct (bounds_spec_any_threshold a P begin end_ q2 m Hthr Hsorted Hbe)
    as (l2 & ? & u2 & ? & Hrun2 & Hl2 & Hu2 & _).
  destruct (Hrun1 fuel Hfuel) as [Hr1 Hr1'].
  destruct (Hrun2 fuel Hfuel) as [Hr2 Hr2'].
  exists l1, l2, u1, u2. rewrite Hr1, Hr2, Hr1', Hr2'. cbn [fst].
  repeat (split; [reflexivity|]).
  destruct Hl1 as (Hb1 & Hpre1 & _). destruct Hl2 as (Hb2 & _ & Hpost2).
  destruct Hu1 as (Hc1 & Hupre1 & _). destruct Hu2 as (Hc2 & _ & Hupost2).
  split.
  - destruct (Z_le_gt_dec l1 l2) as [Hle|Hgt]; [exact Hle|].
    assert (Ht : less (heap m l2) q1 = true) by (apply Hpre1; lia).
    assert (Hf : less (heap m l2) q2 = false) by (apply Hpost2; lia).
    destruct (less_negtrans (heap m l2) q2 q1 Ht) as [Hx|Hx]; congruence.
  - destruct (Z_le_gt_dec u1 u2) as [Hle|Hgt]; [exact Hle|].
    assert (Ht : less_equal (heap m u2) q1 = true) by (apply Hupre1; lia).
    assert (Hf : less_equal (heap m u2) q2 = false) by (apply Hupost2; lia).
    rewrite less_equal_less in Ht, Hf.
    apply negb_true_iff in Ht. apply negb_false_iff in Hf.
    destruct (less_negtrans q2 q1 (heap m u2) Hf) as [Hx|Hx]; congruence.
Qed.

Lemma X8_bounds_monotone_in_query_witness :
  exists l1 l2 u1 u2,
    fst (Q_ary_lower_bound Q3 (mk_parameters 3) 14 0 13 7
           (array_machine test_fragmented)) = Some l1 /\
    fst (Q_ary_lower_bound Q3 (mk_parameters 3) 14 0 13 12
           (array_machine test_fragmented)) = Some l2 /\
    fst (Q_ary_upper_bound Q3 (mk_parameters 3) 14 0 13 7
           (array_machine test_fragmented)) = Some u1 /\
    fst (Q_ary_upper_bound Q3 (mk_parameters 3) 14 0 13 12
           (array_machine test_fragmented)) = Some u2 /\
    l1 <= l2 /\ u1 <= u2.
Proof.
  apply (X8_bounds_monotone_in_query Q3 (mk_parameters 3) 0 13 7 12
           (array_machine test_fragmented) 14).
  - simpl. lia.
  - exact test_fragmented_sorted.
  - lia.
  - reflexivity.
  - vm_compute. apply le_n.
Defined.

(** X9: on a sorted range of fewer than 2^32 elements the two bounds
    delimit the elements equivalent to the query: a position of the
    range lies in [lower bound, upper bound) exactly when neither its
    element is less than the query nor the query less than it. *)
Theorem X9_bounds_delimit_equivalent_run {T} `{OrderedLaws T} (a : arity)
    (P : search_parameters_t) (begin end_ : Z) (q : T) (m : machine T)
    (fuel : nat) :
  arity_value a <= _to_linear_threshold P ->
  sorted_range less (heap m) begin end_ ->
  begin <= end_ ->
  end_ - begin < length_t_modulus ->
  (Z.to_nat (end_ - begin) < fuel)%nat ->
  exists lb ub,
    fst (Q_ary_lower_bound a P fuel begin end_ q m) = Some lb /\
    fst (Q_ary_upper_bound a P fuel begin end_ q m) = Some ub /\
    forall i, begin <= i < end_ ->
      (lb <= i < ub <-> equivalent (heap m i) q).
Proof.
  intros Hthr Hsorted Hbe Hsmall Hfuel.
  destruct (bounds_spec_any_threshold a P begin end_ q m Hthr Hsorted Hbe)
    as (lb & ? & ub & ? & Hrun & Hl & Hu & Hpl & Hpu & _).
  rewrite to_length_t_small in Hrun, Hl, Hu, Hpl, Hpu by lia.
  replace (begin + (end_ - begin)) with end_ in Hl, Hu, Hpl, Hpu by lia.
  destruct (Hrun fuel Hfuel) as [Hr Hr'].
  exists lb, ub. rewrite Hr, Hr'. cbn [fst].
  split; [reflexivity|]. split; [reflexivity|].
  intros i Hi. unfold equivalent.
  pose proof (partition_point_after _ _ _ _ _ _ Hpl Hl i) as Hlafter.
  pose proof (partition_point_after _ _ _ _ _ _ Hpu Hu i) as Huafter.
  destruct Hl as (_ & Hlpre & _). destruct Hu as (_ & Hupre & _).
  specialize (Hlpre i). specialize (Hupre i).
  rewrite less_equal_less in Hupre, Huafter.
  rewrite negb_true_iff in Hupre. rewrite negb_false_iff in Huafter.
  split.
  - intros [H1 H2]. split; [apply Hlafter; lia | apply Hupre; lia].
  - intros [H1 H2]. split.
    + destruct (Z_le_gt_dec lb i) as [Hle|Hgt]; [exact Hle|].
      rewrite Hlpre in H1 by lia. discriminate H1.
    + destruct (Z_lt_ge_dec i ub) as [Hlt|Hge]; [exact Hlt|].
      rewrite Huafter in H2 by lia. discriminate H2.
Qed.

Lemma X9_bounds_delimit_equivalent_run_witness :
  exists lb ub,
    fst (Q_ary_lower_bound Q5 (Q_ary_search_parameters Q5) 14 0 13 16
           (array_machine test_fragmented)) = Some lb /\
    fst (Q_ary_upper_bound Q5 (Q_ary_search_parameters Q5) 14 0 13 16
           (array_machine test_fragmented)) = Some ub /\
    forall i, 0 <= i < 13 ->
      (lb <= i < ub <-> equivalent (array_heap test_fragmented i) 16).
Proof.
  apply (X9_bounds_delimit_equivalent_run Q5 (Q_ary_search_parameters Q5)
           0 13 16 (array_machine test_fragmented) 14).
  - vm_compute. discriminate.
  - exact test_fragmented_sorted.
  - lia.
  - vm_compute. reflexivity.
  - vm_compute. apply le_n.
Defined.

(** X10: on a sorted range of fewer than 2^32 elements the membership
    test answers true exactly when the range holds an element
    equivalent to the query. *)
Theorem X10_membership_finds_equivalent {T} `{OrderedLaws T} (a : arity)
    (P : search_parameters_t) (begin end_ : Z) (q : T) (m : machine T)
    (fuel : nat) :
  arity_value a <= _to_linear_threshold P ->
  sorted_range less (heap m) begin end_ ->
  begin <= end_ ->
  end_ - begin < length_t_modulus ->
  (Z.to_nat (end_ - begin) < fuel)%nat ->
  exists answer,
    fst (Q_ary_contains a P fuel begin end_ q m) = Some answer /\
    (answer = true <->
     exists i, begin <= i < end_ /\ equivalent (heap m i) q).
Proof.
  intros Hthr Hsorted Hbe Hsmall Hfuel.
  pose proof (sorted_partitioned_less (heap m) begin end_ q Hsorted)
    as Hpart.
  destruct (Q_ary_search_spec less q a P begin end_ m Hthr)
    as (r & log & Hrun & _ & _ & Hpp).
  rewrite to_length_t_small in Hrun, Hpp by lia.
  replace (begin + (end_ - begin)) with end_ in Hpp by lia.
  specialize (Hpp Hpart).
  pose proof (partition_point_after _ _ _ _ _ _ Hpart Hpp) as Hafter.
  destruct Hpp as (Hr & Hpre & Hpost).
  rewrite Q_ary_contains_unfold, Q_ary_lower_bound_unfold. unfold bind.
  rewrite (Hrun fuel Hfuel), found_eq. cbn [fst heap].
  eexists. split; [reflexivity|]. unfold equivalent.
  destruct (Z.eqb_spec r end_) as [Heq|Hne]; cbn [negb andb].
  - split; [discriminate|].
    intros (i & Hi & Hli & _). rewrite Hpre in Hli by lia.
    discriminate Hli.
  - split.
    + intros Hn. apply negb_true_iff in Hn.
      exists r. split; [lia|]. split; [apply Hpost; lia | exact Hn].
    + intros (i & Hi & Hli & Hqi). apply negb_true_iff.
      assert (Hri : r <= i).
      { destruct (Z_le_gt_dec r i) as [Hle|Hgt]; [exact Hle|].
        rewrite Hpre in Hli by lia. discriminate Hli. }
      destruct (Z.eq_dec r i) as [->|Hneq]; [exact Hqi|].
      destruct (less q (heap m r)) eqn:Hqr; [|reflexivity].
      destruct (less_negtrans q (heap m i) (heap m r) Hqr) as [Hx|Hx].
      * congruence.
      * rewrite (Hsorted r i) in Hx by lia. discriminate Hx.
Qed.

Lemma X10_membership_finds_equivalent_witness :
  exists answer,
    fst (Q_ary_contains Q4 (Q_ary_search_parameters Q4) 14 0 13 8
           (array_machine test_ordinary)) = Some answer /\
    (answer = true <->
     exists i, 0 <= i < 13 /\ equivalent (array_heap test_ordinary i) 8).
Proof.
  apply (X10_membership_finds_equivalent Q4 (Q_ary_search_parameters Q4)
           0 13 8 (array_machine test_ordinary) 14).
  - vm_compute. discriminate.
  - exact test_ordinary_sorted.
  - lia.
  - vm_compute. reflexivity.
  - vm_compute. apply le_n.
Defined.

(** ** X11: the self test of [main.cpp] *)

Lemma test_constant_sorted :
  sorted_range Z.ltb (array_heap test_constant) 0 9.
Proof.
  apply sorted_range_adjacent; [exact ltb_strict_weak_order|].
  intros i Hi Hi'.
  assert (Hc : i = 0 \/ i = 1 \/ i = 2 \/ i = 3 \/ i = 4 \/ i = 5 \/ i = 6 \/
               i = 7) by lia.
  repeat (destruct Hc as [-> | Hc]; [reflexivity|]). subst i. reflexivity.
Qed.

(** An assertion of the self test holds as soon as a linear scan of the
    sorted array stops at the expected position. *)
Lemma assert_result_lower_bound a P fuel (l : list Z) v k :
  arity_value a <= _to_linear_threshold P ->
  sorted_range Z.ltb (array_heap l) 0 (Z.of_nat (List.length l)) ->
  Z.of_nat (List.length l) < length_t_modulus ->
  (List.length l < fuel)%nat ->
  first_failing Z.ltb v (array_heap l) (List.length l) 0 = k ->
  assert_result (lower_bound_function a P fuel) l v k = true.
Proof.
  intros Hthr Hsorted Hsmall Hfuel Hk.
  unfold assert_result, lower_bound_function.
  rewrite Q_ary_lower_bound_unfold.
  set (n := Z.of_nat (List.length l)) in *.
  destruct (Q_ary_search_spec less v a P 0 (0 + n) (array_machine l) Hthr)
    as (r & log & Hrun & _ & _ & Hpp).
  replace (0 + n - 0) with n in Hrun, Hpp by lia.
  rewrite to_length_t_small in Hrun, Hpp by lia.
  rewrite (Hrun fuel) by lia. cbn [fst].
  assert (Hr : r = first_failing Z.ltb v (array_heap l) (List.length l) 0).
  { apply (partition_point_unique Z.ltb v (array_heap l) 0 (0 + n)).
    - apply Hpp. apply (sorted_partitioned Z.ltb).
      + exact ltb_strict_weak_order.
      + rewrite Z.add_0_l. exact Hsorted.
    - apply first_failing_point. }
  rewrite Hr, Hk. rewrite Z.add_0_l. apply Z.eqb_refl.
Qed.

(** X11: none of the sixteen assertions of
    [test_search_on_sorted_int_array] fails, for any of the five lower
    bounds under any threshold of at least its arity (the defaults
    among them). *)
Theorem X11_self_test_passes (a : arity) (P : search_parameters_t)
    (fuel : nat) :
  arity_value a <= _to_linear_threshold P ->
  (13 < fuel)%nat ->
  test_search_on_sorted_int_array (lower_bound_function a P fuel) = true.
Proof.
  intros Hthr Hfuel. unfold test_search_on_sorted_int_array.
  repeat (apply andb_true_intro; split);
    (apply assert_result_lower_bound;
     [ exact Hthr
     | first [ exact test_ordinary_sorted
             | exact test_fragmented_sorted
             | exact test_constant_sorted
             | intros i j Hi Hij Hj; simpl in Hj; lia ]
     | vm_compute; reflexivity
     | simpl; lia
     | vm_compute; reflexivity ]).
Qed.

Lemma X11_self_test_passes_witness :
  test_search_on_sorted_int_array
    (lower_bound_function Q6 (mk_parameters 6) 14) = true.
Proof.
  apply (X11_self_test_passes Q6 (mk_parameters 6) 14).
  - simpl. lia.
  - lia.
Defined.

(** ** X12 and X13: the benchmark loop *)

(** A lower bound call on a sorted range of fewer than 2^32 elements:
    the position of the linear scan, and a store with the same
    elements. *)
Lemma lower_bound_function_run a P fuel begin end_ v (m : machine Z) :
  arity_value a <= _to_linear_threshold P ->
  sorted_range Z.ltb (heap m) begin end_ ->
  begin <= end_ -> end_ - begin < length_t_modulus ->
  (Z.to_nat (end_ - begin) < fuel)%nat ->
  exists log,
    lower_bound_function a P fuel begin end_ v m =
    (Some (first_failing Z.ltb v (heap m) (Z.to_nat (end_ - begin)) begin),
     mk_machine (heap m) (log ++ reads m)).
Proof.
  intros Hthr Hsorted Hbe Hsmall Hfuel. unfold lower_bound_function.
  rewrite Q_ary_lower_bound_unfold.
  destruct (Q_ary_search_spec less v a P begin end_ m Hthr)
    as (r & log & Hrun & _ & _ & Hpp).
  rewrite to_length_t_small in Hrun, Hpp by lia.
  exists log. rewrite (Hrun fuel Hfuel). f_equal. f_equal.
  apply (partition_point_unique Z.ltb v (heap m) begin
           (begin + (end_ - begin))).
  - apply Hpp. apply (sorted_partitioned Z.ltb).
    + exact ltb_strict_weak_order.
    + replace (begin + (end_ - begin)) with end_ by lia. exact Hsorted.
  - pose proof (first_failing_point Z.ltb v (heap m)
                  (Z.to_nat (end_ - begin)) begin) as Hff.
    rewrite Z2Nat.id in Hff by lia. exact Hff.
Qed.

Section BenchmarkLoop.

Variables a1 a2 : arity.
Variables P1 P2 : search_parameters_t.
Variables fuel1 fuel2 : nat.
Variable h : Z -> Z.
Variables begin end_ : Z.
Variables finish_q step_q : Z.

Hypothesis Hthr1 : arity_value a1 <= _to_linear_threshold P1.
Hypothesis Hthr2 : arity_value a2 <= _to_linear_threshold P2.
Hypothesis Hsorted : sorted_range Z.ltb h begin end_.
Hypothesis Hbe : begin <= end_.
Hypothesis Hsmall : end_ - begin < length_t_modulus.
Hypothesis Hfuel1 : (Z.to_nat (end_ - begin) < fuel1)%nat.
Hypothesis Hfuel2 : (Z.to_nat (end_ - begin) < fuel2)%nat.

Lemma run_searches_loop_same_collector :
  forall fuel q c (m1 m2 : machine Z),
    heap m1 = h -> heap m2 = h ->
    fst (run_searches_loop fuel (lower_bound_function a1 P1 fuel1)
           begin end_ q finish_q step_q c m1) =
    fst (run_searches_loop fuel (lower_bound_function a2 P2 fuel2)
           begin end_ q finish_q step_q c m2).
Proof.
  induction fuel as [|fuel IH]; intros q c m1 m2 Hm1 Hm2; [reflexivity|].
  cbn [run_searches_loop]. destruct (q <=? finish_q); [|reflexivity].
  unfold bind.
  destruct (lower_bound_function_run a1 P1 fuel1 begin end_ q m1)
    as [log1 Hr1]; try assumption; [rewrite Hm1; exact Hsorted|].
  destruct (lower_bound_function_run a2 P2 fuel2 begin end_ q m2)
    as [log2 Hr2]; try assumption; [rewrite Hm2; exact Hsorted|].
  rewrite Hr1, Hr2, Hm1, Hm2. apply IH; reflexivity.
Qed.

End BenchmarkLoop.

(** X12: the benchmark compares like with like: on a sorted range of
    fewer than 2^32 integers, [run_searches] leaves the same value in
    [collector] whichever two of the five lower bounds it is given,
    each under any threshold of at least its arity, for any interval
    and step of queries. *)
Theorem X12_run_searches_same_collector (a1 a2 : arity)
    (P1 P2 : search_parameters_t) (fuel1 fuel2 fuel : nat)
    (begin end_ start_q finish_q step_q collector : Z) (m : machine Z) :
  arity_value a1 <= _to_linear_threshold P1 ->
  arity_value a2 <= _to_linear_threshold P2 ->
  sorted_range Z.ltb (heap m) begin end_ ->
  begin <= end_ ->
  end_ - begin < length_t_modulus ->
  (Z.to_nat (end_ - begin) < fuel1)%nat ->
  (Z.to_nat (end_ - begin) < fuel2)%nat ->
  fst (run_searches fuel (lower_bound_function a1 P1 fuel1) begin end_
         start_q finish_q step_q collector m) =
  fst (run_searches fuel (lower_bound_function a2 P2 fuel2) begin end_
         start_q finish_q step_q collector m).
Proof.
  intros Hthr1 Hthr2 Hsorted Hbe Hsmall Hfuel1 Hfuel2. unfold run_searches.
  apply (run_searches_loop_same_collector a1 a2 P1 P2 fuel1 fuel2 (heap m)
           begin end_ finish_q step_q Hthr1 Hthr2 Hsorted Hbe Hsmall
           Hfuel1 Hfuel2); reflexivity.
Qed.

Lemma X12_run_searches_same_collector_witness :
  fst (run_searches 50 (lower_bound_function Q2 _2_ary_search_parameters 14)
         0 13 0 40 1 0 (array_machine test_ordinary)) =
  fst (run_searches 50 (lower_bound_function Q5 _5_ary_search_parameters 14)
         0 13 0 40 1 0 (array_machine test_ordinary)).
Proof.
  apply (X12_run_searches_same_collector Q2 Q5 _2_ary_search_parameters
           _5_ary_search_parameters 14 14 50 0 13 0 40 1 0
           (array_machine test_ordinary)).
  - vm_compute. discriminate.
  - vm_compute. discriminate.
  - exact test_ordinary_sorted.
  - lia.
  - vm_compute. reflexivity.
  - vm_compute. apply le_n.
  - vm_compute. apply le_n.
Defined.

(** With a positive step the loop ends within finish_q - q + 1 rounds
    when every search returns. *)
Lemma run_searches_loop_ends (a : arity) (P : search_parameters_t)
    (sfuel : nat) (begin end_ finish_q step_q : Z) :
  arity_value a <= _to_linear_threshold P ->
  (Z.to_nat (to_length_t (end_ - begin)) < sfuel)%nat ->
  1 <= step_q ->
  forall fuel q c (m : machine Z),
    (Z.to_nat (finish_q - q + 1) < fuel)%nat ->
    0 <= c < collector_modulus ->
    exists c' log,
      run_searches_loop fuel (lower_bound_function a P sfuel) begin end_
        q finish_q step_q c m =
      (Some c', mk_machine (heap m) (log ++ reads m)) /\
      0 <= c' < collector_modulus.
Proof.
  intros Hthr Hsfuel Hstep.
  induction fuel as [|fuel IH]; intros q c m Hfuel Hc; [lia|].
  cbn [run_searches_loop]. destruct (Z.leb_spec q finish_q) as [Hle|Hgt].
  - unfold bind, lower_bound_function. rewrite Q_ary_lower_bound_unfold.
    destruct (Q_ary_search_spec less q a P begin end_ m Hthr)
      as (r & log & Hrun & _).
    rewrite (Hrun sfuel Hsfuel).
    destruct (IH (q + step_q)
                ((c + (r - begin)) mod collector_modulus)
                (mk_machine (heap m) (log ++ reads m)))
      as (c' & log' & Hloop & Hc'); try lia.
    { apply Z.mod_pos_bound. unfold collector_modulus. lia. }
    cbn [heap reads] in Hloop. exists c', (log' ++ log).
    rewrite <- app_assoc. split; [exact Hloop | exact Hc'].
  - exists c, []. destruct m. split; [reflexivity | exact Hc].
Qed.

(** X13: the query loop of [run_searches]. An empty interval of queries
    (finish_q < start_q) runs no search and leaves [collector] and the
    store as they are. With a step of at least 1, and start_q, finish_q,
    step_q and finish_q + step_q integers of magnitude at most 2^24 (so
    that every [q += step_q] of the run is exact in [float] and does
    not overflow [int]), the loop ends after at most finish_q - start_q
    + 1 rounds and leaves a 64-bit value in [collector], the store
    unchanged. With the step 0 and start_q <= finish_q the loop never
    ends, whatever the search function. *)
Theorem X13_run_searches_loop (search_f : search_function) (a : arity)
    (P : search_parameters_t) (sfuel : nat)
    (begin end_ start_q finish_q step_q collector : Z) (m : machine Z) :
  (finish_q < start_q ->
   forall fuel,
     run_searches (S fuel) search_f begin end_ start_q finish_q step_q
       collector m = (Some collector, m)) /\
  (arity_value a <= _to_linear_threshold P ->
   (Z.to_nat (to_length_t (end_ - begin)) < sfuel)%nat ->
   1 <= step_q ->
   exact_query start_q -> exact_query finish_q -> exact_query step_q ->
   exact_query (finish_q + step_q) ->
   0 <= collector < collector_modulus ->
   forall fuel, (Z.to_nat (finish_q - start_q + 1) < fuel)%nat ->
     exists c' log,
       run_searches fuel (lower_bound_function a P sfuel) begin end_
         start_q finish_q step_q collector m =
       (Some c', mk_machine (heap m) (log ++ reads m)) /\
       0 <= c' < collector_modulus) /\
  (step_q = 0 -> start_q <= finish_q ->
   forall fuel,
     fst (run_searches fuel search_f begin end_ start_q finish_q step_q
            collector m) = None).
Proof.
  split; [|split].
  - intros Hempty fuel. unfold run_searches. cbn [run_searches_loop].
    destruct (Z.leb_spec start_q finish_q); [lia | reflexivity].
  - intros Hthr Hsfuel Hstep _ _ _ _ Hc fuel Hfuel. unfold run_searches.
    apply run_searches_loop_ends; assumption.
  - intros -> Hle fuel. unfold run_searches. revert collector m.
    induction fuel as [|fuel IH]; intros c m'; [reflexivity|].
    cbn [run_searches_loop].
    destruct (Z.leb_spec start_q finish_q); [|lia].
    unfold bind. destruct (search_f begin end_ start_q m') as [[r|] m1];
      [|reflexivity].
    rewrite Z.add_0_r. apply IH.
Qed.

Lemma X13_run_searches_loop_witness :
  run_searches 1 (lower_bound_function Q2 _2_ary_search_parameters 14)
    0 13 5 4 1 7 (array_machine test_ordinary)
  = (Some 7, array_machine test_ordinary) /\
  (exists c' log,
     run_searches 50 (lower_bound_function Q2 _2_ary_search_parameters 14)
       0 13 0 40 3 7 (array_machine test_ordinary)
     = (Some c', mk_machine (array_heap test_ordinary) (log ++ [])) /\
     0 <= c' < collector_modulus) /\
  (forall fuel,
     fst (run_searches fuel
            (lower_bound_function Q2 _2_ary_search_parameters 14)
            0 13 0 40 0 7 (array_machine test_ordinary)) = None).
Proof.
  destruct (X13_run_searches_loop
              (lower_bound_function Q2 _2_ary_search_parameters 14)
              Q2 _2_ary_search_parameters 14 0 13 5 4 1 7
              (array_machine test_ordinary)) as (Hempty & _ & _).
  destruct (X13_run_searches_loop
              (lower_bound_function Q2 _2_ary_search_parameters 14)
              Q2 _2_ary_search_parameters 14 0 13 0 40 3 7
              (array_machine test_ordinary)) as (_ & Hends & _).
  destruct (X13_run_searches_loop
              (lower_bound_function Q2 _2_ary_search_parameters 14)
              Q2 _2_ary_search_parameters 14 0 13 0 40 0 7
              (array_machine test_ordinary)) as (_ & _ & Hloops).
  split; [|split].
  - apply Hempty. lia.
  - apply Hends.
    + vm_compute. discriminate.
    + vm_compute. apply le_n.
    + lia.
    + unfold exact_query. lia.
    + unfold exact_query. lia.
    + unfold exact_query. lia.
    + unfold exact_query. lia.
    + vm_compute. split; [discriminate | reflexivity].
    + vm_compute. lia.
  - apply Hloops; [reflexivity | lia].
Defined.
